(** * Terraform module discovery and collision-free download planning

    A shallow embedding of [checkov/terraform/module_loading/module_finder.py]:
    the [ModuleDownload] record and its [address], the line scanner
    [find_modules], the eligibility predicate [should_download], and the three
    stages of [load_tf_modules] (deduplication by address, batch planning,
    batch execution), followed by the properties of the design document.

    Conventions of the embedding.
    - Python [str] is [string]; a character is its code point below 256, and
      the classes [\d], [\s] and [\w] of [re] are written out on that range.
    - Python [None] is [None] of an [option].
    - A [dict] is an insertion-ordered association list ([odict]): iteration
      order is what [.values()] of the source observes.
    - A function that logs, calls the loader or may raise runs in the monad
      [M S], a state monad over [S] whose result is a value or an exception;
      the state survives a [raise], as the mutated Python variables do. *)

From Stdlib Require Import String Ascii ZArith List Lia Bool.
From stdpp Require Import base list strings relations.
Import ListNotations.

Local Open Scope string_scope.
Local Open Scope list_scope.

(** * The program *)

(** ** Exceptions and results *)

Inductive exn_class : Type :=
  | UnicodeDecodeError
  | FileNotFoundError
  | PermissionError
  | AttributeError
  | IndexError
  | OtherException.

Record exn : Type := Exn { exn_kind : exn_class; exn_str : string }.

Inductive result (A : Type) : Type :=
  | Returned (a : A)
  | Raised (e : exn).
Arguments Returned {A} a.
Arguments Raised {A} e.

(** ** The state-and-exception monad *)

Definition M (S A : Type) : Type := S -> result A * S.

Definition ret {S A} (a : A) : M S A := fun s => (Returned a, s).

Definition bind {S A B} (m : M S A) (k : A -> M S B) : M S B :=
  fun s => match m s with
           | (Returned a, s') => k a s'
           | (Raised e, s') => (Raised e, s')
           end.

Definition raise {S A} (e : exn) : M S A := fun s => (Raised e, s).

Definition gets {S A} (f : S -> A) : M S A := fun s => (Returned (f s), s).

Definition modify {S} (f : S -> S) : M S unit := fun s => (Returned tt, f s).

(** [try: m] with [except classes as e: h e], where [handled] tells whether
    the class of an exception is among [classes]. *)
Definition try_except {S A} (m : M S A) (handled : exn -> bool)
    (h : exn -> M S A) : M S A :=
  fun s => match m s with
           | (Returned a, s') => (Returned a, s')
           | (Raised e, s') => if handled e then h e s' else (Raised e, s')
           end.

Declare Scope monad_scope.
Delimit Scope monad_scope with monad.
Notation "'let*' x ':=' m 'in' k" := (bind m (fun x => k))
  (at level 10, x name, m at level 100, k at level 200) : monad_scope.
Notation "m >> k" := (bind m (fun _ => k))
  (at level 90, right associativity) : monad_scope.
Local Open Scope monad_scope.

(** [for x in l: body x] *)
Fixpoint for_each {S A} (l : list A) (body : A -> M S unit) : M S unit :=
  match l with
  | [] => ret tt
  | x :: l' => body x >> for_each l' body
  end.

(** ** Strings *)

(** [s.startswith(p)] *)
Definition startswith (s p : string) : bool := String.prefix p s.

(** [s.endswith(p)] *)
Definition endswith (s p : string) : bool :=
  String.prefix (String.rev p) (String.rev s).

(** [str(x)] of an attribute that is a string or [None] *)
Definition py_str (o : option string) : string :=
  match o with
  | Some s => s
  | None => "None"
  end.

(** Python truthiness of a string-or-[None] value: [None] and the empty
    string are false. *)
Definition truthy (o : option string) : bool :=
  match o with
  | Some (String _ _) => true
  | _ => false
  end.

(** *** [os.path] on POSIX *)

(** One step of [posixpath.join]. *)
Definition join2 (a b : string) : string :=
  if startswith b "/" then b
  else if String.eqb a EmptyString || endswith a "/" then a +:+ b
  else a +:+ "/" +:+ b.

(** [os.path.join(a, *p)] *)
Definition os_path_join (a : string) (p : list string) : string :=
  fold_left join2 p a.

(** [s.rstrip('/')] *)
Fixpoint rstrip_slash (s : string) : string :=
  match s with
  | EmptyString => EmptyString
  | String c s' =>
      match rstrip_slash s' with
      | EmptyString => if Ascii.eqb c "/" then EmptyString else String c EmptyString
      | r => String c r
      end
  end.

(** [p[:p.rfind('/') + 1]]: the prefix of [p] up to and including its last
    slash, empty when there is none. *)
Fixpoint upto_last_slash (p : string) : string :=
  match p with
  | EmptyString => EmptyString
  | String c p' =>
      match upto_last_slash p' with
      | EmptyString => if Ascii.eqb c "/" then String c EmptyString else EmptyString
      | r => String c r
      end
  end.

Fixpoint all_slashes (s : string) : bool :=
  match s with
  | EmptyString => true
  | String c s' => Ascii.eqb c "/" && all_slashes s'
  end.

(** [os.path.dirname(p)] *)
Definition os_path_dirname (p : string) : string :=
  let head := upto_last_slash p in
  if negb (String.eqb head EmptyString) && negb (all_slashes head)
  then rstrip_slash head
  else head.

(** ** The two regular expressions of the scanner

    Both patterns are sequences of literals, greedy stars of a character
    class, one word boundary and one named group holding a greedy star.
    [matches] is the backtracking matcher of [re.match] on such sequences:
    anchored at the start of the line, longest repetition first. *)

Module Re.

Inductive cls : Type :=
  | Dot        (* any character but a newline *)
  | Space      (* whitespace *)
  | NotDigit.  (* anything but a decimal digit *)

Inductive atom : Type :=
  | Lit (c : ascii)                    (* the character [c] *)
  | Star (k : cls)                     (* greedy repetition of a class *)
  | WordBoundary                       (* [\b] *)
  | Group (name : string) (k : cls).   (* named group around a greedy repetition *)

Definition code (c : ascii) : N := N_of_ascii c.

Definition between (lo hi : N) (c : ascii) : bool :=
  ((lo <=? code c) && (code c <=? hi))%N.

Definition is_digit (c : ascii) : bool := between 48 57 c.

Definition is_space (c : ascii) : bool :=
  between 9 13 c || between 28 32 c
  || (code c =? 133)%N || (code c =? 160)%N.

(** [\w]: alphanumeric or underscore. *)
Definition is_word (c : ascii) : bool :=
  is_digit c || between 65 90 c || between 97 122 c || (code c =? 95)%N
  || (code c =? 170)%N || (code c =? 178)%N || (code c =? 179)%N
  || (code c =? 181)%N || (code c =? 185)%N || (code c =? 186)%N
  || between 188 190 c
  || between 192 214 c || between 216 246 c || between 248 255 c.

Definition in_cls (k : cls) (c : ascii) : bool :=
  match k with
  | Dot => negb (code c =? 10)%N
  | Space => is_space c
  | NotDigit => negb (is_digit c)
  end.

Definition word_opt (o : option ascii) : bool :=
  match o with
  | Some c => is_word c
  | None => false
  end.

Definition next_char (s : string) : option ascii :=
  match s with
  | EmptyString => None
  | String c _ => Some c
  end.

(** [matches r prev s]: match the atoms [r] against a prefix of [s], where
    [prev] is the character before [s]; the answer is the dictionary of
    named groups of the first match found. *)
Fixpoint matches (r : list atom) (prev : option ascii) (s : string)
    : option (list (string * string)) :=
  match r with
  | [] => Some []
  | Lit c :: r' =>
      match s with
      | String c' s' => if Ascii.eqb c c' then matches r' (Some c') s' else None
      | EmptyString => None
      end
  | WordBoundary :: r' =>
      if xorb (word_opt prev) (word_opt (next_char s))
      then matches r' prev s
      else None
  | Star k :: r' =>
      (fix star (prev : option ascii) (s : string) {struct s} :=
         match s with
         | String c s' =>
             if in_cls k c then
               match star (Some c) s' with
               | Some g => Some g
               | None => matches r' prev s
               end
             else matches r' prev s
         | EmptyString => matches r' prev s
         end) prev s
  | Group name k :: r' =>
      (fix star (acc : string) (prev : option ascii) (s : string) {struct s} :=
         match s with
         | String c s' =>
             if in_cls k c then
               match star (acc +:+ String c EmptyString) (Some c) s' with
               | Some g => Some g
               | None =>
                   match matches r' prev s with
                   | Some g => Some ((name, acc) :: g)
                   | None => None
                   end
               end
             else
               match matches r' prev s with
               | Some g => Some ((name, acc) :: g)
               | None => None
               end
         | EmptyString =>
             match matches r' prev s with
             | Some g => Some ((name, acc) :: g)
             | None => None
             end
         end) EmptyString prev s
  end.

Fixpoint lits (s : string) : list atom :=
  match s with
  | EmptyString => []
  | String c s' => Lit c :: lits s'
  end.

(** [re.match(pattern, line)] followed by [.group(name)]; [None] when the
    pattern does not match. *)
Definition re_match_group (r : list atom) (name : string) (line : string)
    : option string :=
  match matches r None line with
  | Some g =>
      match List.find (fun kv => String.eqb (fst kv) name) g with
      | Some kv => Some (snd kv)
      | None => None
      end
  | None => None
  end.

(** The double quote. *)
Definition quote : ascii := ascii_of_nat 34.

(** The pattern of line 52: [.*\bsource\s*=\s*], a double quote, the group
    [LINK] around [.*], and a double quote. *)
Definition source_re : list atom :=
  [Star Dot; WordBoundary] ++ lits "source"
  ++ [Star Space; Lit "="; Star Space; Lit quote; Group "LINK" Dot; Lit quote].

(** The pattern of line 57: [.*\bversion\s*=\s*], a double quote, [[^\d]*],
    the group [VERSION] around [.*], and a double quote. *)
Definition version_re : list atom :=
  [Star Dot; WordBoundary] ++ lits "version"
  ++ [Star Space; Lit "="; Star Space; Lit quote; Star NotDigit;
      Group "VERSION" Dot; Lit quote].

End Re.

(** ** [ModuleDownload] *)

Record ModuleDownload : Type := MkModuleDownload {
  source_dir : string;
  module_link : option string;
  version : option string
}.

(** [ModuleDownload(source_dir)]: the two class attributes default to [None]. *)
Definition new_ModuleDownload (dir : string) : ModuleDownload :=
  {| source_dir := dir; module_link := None; version := None |}.

Definition set_module_link (l : string) (m : ModuleDownload) : ModuleDownload :=
  {| source_dir := source_dir m; module_link := Some l; version := version m |}.

Definition set_version (v : string) (m : ModuleDownload) : ModuleDownload :=
  {| source_dir := source_dir m; module_link := module_link m; version := Some v |}.

(** [f'{self.module_link}:{self.version}'] *)
Definition address (m : ModuleDownload) : string :=
  py_str (module_link m) +:+ ":" +:+ py_str (version m).

#[global] Instance ModuleDownload_eq_dec : EqDecision ModuleDownload.
Proof. solve_decision. Defined.

(** ** Insertion-ordered dictionaries *)

Section Odict.
Context {K V : Type} `{EqDecision K}.

Definition odict : Type := list (K * V).

(** [k in d] *)
Definition dict_in (k : K) (d : odict) : bool :=
  bool_decide (k ∈ map fst d).

(** [d[k] = v]: an existing key keeps its position, a new key goes last. *)
Fixpoint dict_set (k : K) (v : V) (d : odict) : odict :=
  match d with
  | [] => [(k, v)]
  | (k', v') :: d' =>
      if decide (k = k') then (k, v) :: d' else (k', v') :: dict_set k v d'
  end.

(** [d.values()] *)
Definition dict_values (d : odict) : list V := map snd d.

Definition dict_keys (d : odict) : list K := map fst d.
End Odict.
Arguments odict : clear implicits.

(** ** The file system seen by the scanner *)

(** How iterating over an open text file ends: at the end of the file, or with
    an exception of the decoder. *)
Inductive read_end : Type :=
  | EOF
  | ReadError (e : exn).

(** An open text file: the lines its iteration yields, then its end. *)
Record open_file : Type := {
  lines : list string;
  ending : read_end
}.

(** [walk p] is what [os.walk(p)] yields, triples of a directory, its
    sub-directory names and its file names; [open_ p] is [open(p)]. *)
Record filesystem : Type := {
  walk : string -> list (string * list string * list string);
  open_ : string -> result open_file
}.

(** ** Logging *)

Inductive level : Type := INFO | WARNING.

Definition log_record : Type := level * string.

(** ** [find_modules] *)

(** The variables of [find_modules], and the log. *)
Record scanner : Type := {
  modules_found : list ModuleDownload;
  in_module : bool;
  curr_md : option ModuleDownload;
  scan_log : list log_record
}.

Definition set_modules_found (l : list ModuleDownload) (s : scanner) : scanner :=
  {| modules_found := l; in_module := in_module s; curr_md := curr_md s;
     scan_log := scan_log s |}.

Definition set_in_module (b : bool) (s : scanner) : scanner :=
  {| modules_found := modules_found s; in_module := b; curr_md := curr_md s;
     scan_log := scan_log s |}.

Definition set_curr_md (o : option ModuleDownload) (s : scanner) : scanner :=
  {| modules_found := modules_found s; in_module := in_module s; curr_md := o;
     scan_log := scan_log s |}.

Definition add_scan_log (r : log_record) (s : scanner) : scanner :=
  {| modules_found := modules_found s; in_module := in_module s;
     curr_md := curr_md s; scan_log := scan_log s ++ [r] |}.

(** [logging.warning(msg)] inside [find_modules] *)
Definition scan_warning (msg : string) : M scanner unit :=
  modify (add_scan_log (WARNING, msg)).

(** Reading or writing an attribute of [curr_md]: on [None] Python raises
    [AttributeError]. *)
Definition the_curr_md (attr : string) : M scanner ModuleDownload :=
  let* o := gets curr_md in
  match o with
  | Some md => ret md
  | None =>
      raise (Exn AttributeError
               ("'NoneType' object has no attribute '" +:+ attr +:+ "'"))
  end.

Definition no_source_warning (md : ModuleDownload) : string :=
  "A module at " +:+ source_dir md +:+ " had no source, skipping".

(** Lines 37 to 59: the body of [for line in f]. *)
Definition scan_line (root file_name line : string) : M scanner unit :=
  let* outside := gets (fun s => negb (in_module s)) in
  if outside && startswith line "module" then
    modify (set_in_module true) >>
    modify (set_curr_md
              (Some (new_ModuleDownload
                       (os_path_dirname (os_path_join root [file_name])))))
  else
    let* inside := gets in_module in
    if inside then
      if startswith line "}" then
        modify (set_in_module false) >>
        (let* md := the_curr_md "module_link" in
         match module_link md with
         | None => scan_warning (no_source_warning md)
         | Some _ => modify (fun s => set_modules_found (modules_found s ++ [md]) s)
         end) >>
        modify (set_curr_md None)
      else
        match Re.re_match_group Re.source_re "LINK" line with
        | Some l =>
            let* md := the_curr_md "module_link" in
            modify (set_curr_md (Some (set_module_link l md)))
        | None =>
            match Re.re_match_group Re.version_re "VERSION" line with
            | Some v =>
                let* md := the_curr_md "version" in
                modify (set_curr_md (Some (set_version v md)))
            | None => ret tt
            end
        end
    else ret tt.

(** [for line in f: body line]: the lines, then the end of the iteration. *)
Definition for_line_in (f : open_file) (body : string -> M scanner unit)
    : M scanner unit :=
  for_each (lines f) body >>
  match ending f with
  | EOF => ret tt
  | ReadError e => raise e
  end.

(** The classes named by the [except] clause of line 60. *)
Definition scan_handles (e : exn) : bool :=
  match exn_kind e with
  | UnicodeDecodeError | FileNotFoundError => true
  | _ => false
  end.

Definition skipping_warning (file : string) (e : exn) : string :=
  "Skipping " +:+ file +:+ " because of " +:+ exn_str e.

(** Lines 30 to 62: the body of [for file_name in full_file_names].  The
    [open] of line 32 is evaluated before the [try] of line 33 is entered. *)
Definition scan_file (fs : filesystem) (path root file_name : string)
    : M scanner unit :=
  if negb (endswith file_name ".tf") then ret tt
  else
    match open_ fs (os_path_join path [root; file_name]) with
    | Raised e => raise e
    | Returned f =>
        try_except
          (modify (set_in_module false) >>
           modify (set_curr_md None) >>
           for_line_in f (scan_line root file_name))
          scan_handles
          (fun e =>
             scan_warning
               (skipping_warning (os_path_join path [root; file_name]) e))
    end.

Definition find_modules_body (fs : filesystem) (path : string)
    : M scanner (list ModuleDownload) :=
  modify (set_modules_found []) >>
  for_each (walk fs path)
    (fun entry => for_each (snd entry) (scan_file fs path (fst (fst entry)))) >>
  gets modules_found.

(** [find_modules(path)], started with the log [l]: its outcome and the log
    it leaves. *)
Definition find_modules (fs : filesystem) (path : string) (l : list log_record)
    : result (list ModuleDownload) * list log_record :=
  let '(r, s) :=
    find_modules_body fs path
      {| modules_found := []; in_module := false; curr_md := None;
         scan_log := l |} in
  (r, scan_log s).

(** ** [should_download] *)

Definition should_download (path : string) : bool :=
  negb (startswith path "./" || startswith path "../" || startswith path "/").

(** ** The loader registry *)

(** The two attributes of [module_loader_registry] that [load_tf_modules]
    assigns. *)
Record registry : Type := {
  download_external_modules : bool;
  root_dir : option string
}.

(** One call [module_loader_registry.load(source_dir, link, version)]. *)
Record load_call : Type := {
  call_dir : string;
  call_link : option string;
  call_version : string
}.

(** What [load] answers: [None], or a content whose [loaded()] is the flag. *)
Definition content : Type := option bool.

(** The loader is outside this module: any function of the registry settings
    and of the call, returning a content or raising. *)
Definition loader : Type := registry -> load_call -> result content.

(** The state [load_tf_modules] acts on: registry settings, log, and the
    calls made to the loader, oldest first. *)
Record world : Type := {
  settings : registry;
  log : list log_record;
  loads : list load_call
}.

Definition set_settings (r : registry) (w : world) : world :=
  {| settings := r; log := log w; loads := loads w |}.

Definition set_log (l : list log_record) (w : world) : world :=
  {| settings := settings w; log := l; loads := loads w |}.

Definition add_log (r : log_record) (w : world) : world :=
  set_log (log w ++ [r]) w.

Definition add_load (c : load_call) (w : world) : world :=
  {| settings := settings w; log := log w; loads := loads w ++ [c] |}.

Definition logging_info (msg : string) : M world unit :=
  modify (add_log (INFO, msg)).

Definition logging_warning (msg : string) : M world unit :=
  modify (add_log (WARNING, msg)).

(** [module_loader_registry.load(...)]: the call is recorded, then answered. *)
Definition registry_load (ld : loader) (c : load_call) : M world content :=
  modify (add_load c) >>
  let* r := gets settings in
  match ld r c with
  | Returned x => ret x
  | Raised e => raise e
  end.

(** ["latest" if not m.version else m.version] *)
Definition load_version (m : ModuleDownload) : string :=
  match version m with
  | Some v => if truthy (Some v) then v else "latest"
  | None => "latest"
  end.

Definition load_call_of (m : ModuleDownload) : load_call :=
  {| call_dir := source_dir m; call_link := module_link m;
     call_version := load_version m |}.

Definition failed_warning (m : ModuleDownload) : string :=
  "Failed to download module " +:+ address m.

Definition unable_warning (m : ModuleDownload) (e : exn) : string :=
  "Unable to load module (" +:+ address m +:+ "): " +:+ exn_str e.

(** ** [load_tf_modules] *)

Section LoadTfModules.
Variable ld : loader.
(** The caller's predicate, applied to [m.module_link]. *)
Variable should_download_module : option string -> result bool.

(** Lines 76 to 85. *)
Definition _download_module (m : ModuleDownload) : M world unit :=
  match should_download_module (module_link m) with
  | Raised e => raise e
  | Returned false => ret tt
  | Returned true =>
      logging_info ("Downloading module " +:+ address m) >>
      try_except
        (let* c := registry_load ld (load_call_of m) in
         match c with
         | None | Some false => logging_warning (failed_warning m)
         | Some true => ret tt
         end)
        (fun _ => true)
        (fun e => logging_warning (unable_warning m e))
  end.
End LoadTfModules.

(** Line 88: [{m.address: m for m in modules_to_load}.values()] *)
Definition distinct_modules (modules_to_load : list ModuleDownload)
    : list ModuleDownload :=
  dict_values
    (fold_left (fun d m => dict_set (address m) m d) modules_to_load []).

(** A batch maps a link to the reference to fetch. *)
Definition batch : Type := odict (option string) ModuleDownload.

(** Lines 94 to 99: the inner loop, at index [i] with the current [found]. *)
Fixpoint last_collision (link : option string) (batches : list batch)
    (i found : Z) : Z :=
  match batches with
  | [] => found
  | b :: rest =>
      if dict_in link b then last_collision link rest (i + 1)%Z i
      else found
  end.

(** The position [l[i]] of a Python list of length [n] refers to. *)
Definition py_index (n : nat) (i : Z) : option nat :=
  if ((0 <=? i) && (i <? Z.of_nat n))%Z then Some (Z.to_nat i)
  else if ((- Z.of_nat n <=? i) && (i <? 0))%Z then Some (Z.to_nat (Z.of_nat n + i))
  else None.

(** Lines 94 to 103: the body of [for m in distinct_modules]. *)
Definition place (m : ModuleDownload) (batches : list batch)
    : result (list batch) :=
  let found := last_collision (module_link m) batches 0 (-1) in
  if (found =? Z.of_nat (length batches) - 1)%Z then
    Returned (batches ++ [dict_set (module_link m) m []])
  else
    match py_index (length batches) (found + 1) with
    | Some j =>
        match batches !! j with
        | Some b => Returned (<[j := dict_set (module_link m) m b]> batches)
        | None => Raised (Exn IndexError "list index out of range")
        end
    | None => Raised (Exn IndexError "list index out of range")
    end.

(** Lines 92 to 103. *)
Fixpoint plan_from (ms : list ModuleDownload) (batches : list batch)
    : result (list batch) :=
  match ms with
  | [] => Returned batches
  | m :: ms' =>
      match place m batches with
      | Returned batches' => plan_from ms' batches'
      | Raised e => Raised e
      end
  end.

Definition plan_batches (ms : list ModuleDownload) : result (list batch) :=
  plan_from ms [].

Section Execute.
Variable fs : filesystem.
Variable ld : loader.
Variable should_download_module : option string -> result bool.

(** [executor.submit(f, m)]: the future keeps whatever the task raises, and
    [futures.wait] never asks for it.  The tasks of a batch share no state
    but the log and the loader, so they are run here in the order of
    submission; the interleavings are the subject of [Pool] below. *)
Definition submit (task : M world unit) : M world unit :=
  try_except task (fun _ => true) (fun _ => ret tt).

(** Lines 105 to 110. *)
Definition run_batches (batches : list batch) : M world unit :=
  for_each batches
    (fun b =>
       for_each (dict_values b)
         (fun m => submit (_download_module ld should_download_module m))).

(** [find_modules(path)] called from [load_tf_modules]. *)
Definition call_find_modules (path : string) : M world (list ModuleDownload) :=
  fun w =>
    let '(r, l) := find_modules fs path (log w) in
    (r, set_log l w).

Definition load_tf_modules (path : string) : M world unit :=
  modify (set_settings {| download_external_modules := true;
                          root_dir := Some path |}) >>
  let* modules_to_load := call_find_modules path in
  match plan_batches (distinct_modules modules_to_load) with
  | Raised e => raise e
  | Returned batches => run_batches batches
  end.
End Execute.

(** The default value of the parameter [should_download_module]; on [None]
    the call of [startswith] raises. *)
Definition default_should_download (link : option string) : result bool :=
  match link with
  | Some p => Returned (should_download p)
  | None =>
      Raised (Exn AttributeError
                "'NoneType' object has no attribute 'startswith'")
  end.

(** ** The worker pool of lines 105 to 110

    Each batch gets a [ThreadPoolExecutor] of its own inside a [with] block.
    The list comprehension submits the tasks of the batch one after the other;
    a worker takes the oldest queued task whenever fewer than [workers] tasks
    run; tasks finish in any order; [futures.wait(..., ALL_COMPLETED)] and the
    exit of the [with] block return once no task of the batch is left, and
    only then does the [for] loop enter the next batch. *)

Module Pool.

(** A task: the index of its batch and the reference it downloads. *)
Definition task : Type := nat * ModuleDownload.

Record state : Type := {
  todo : list batch;          (* batches the loop has not entered yet *)
  opened : nat;               (* number of batches entered so far *)
  unsubmitted : list task;    (* still to be passed to [executor.submit] *)
  queued : list task;         (* submitted, waiting for a worker *)
  running : list task;        (* in flight on a worker *)
  finished : list task        (* completed, in order of completion *)
}.

Definition tasks_of (n : nat) (b : batch) : list task :=
  map (pair n) (dict_values b).

Definition initial (batches : list batch) : state :=
  {| todo := batches; opened := 0; unsubmitted := []; queued := [];
     running := []; finished := [] |}.

Inductive step (workers : nat) : state -> state -> Prop :=
  | step_enter b rest n fin :
      step workers
        {| todo := b :: rest; opened := n; unsubmitted := []; queued := [];
           running := []; finished := fin |}
        {| todo := rest; opened := S n; unsubmitted := tasks_of n b;
           queued := []; running := []; finished := fin |}
  | step_submit bs n t u q r fin :
      step workers
        {| todo := bs; opened := n; unsubmitted := t :: u; queued := q;
           running := r; finished := fin |}
        {| todo := bs; opened := n; unsubmitted := u; queued := q ++ [t];
           running := r; finished := fin |}
  | step_start bs n t u q r fin :
      length r < workers ->
      step workers
        {| todo := bs; opened := n; unsubmitted := u; queued := t :: q;
           running := r; finished := fin |}
        {| todo := bs; opened := n; unsubmitted := u; queued := q;
           running := r ++ [t]; finished := fin |}
  | step_finish bs n t u q r1 r2 fin :
      step workers
        {| todo := bs; opened := n; unsubmitted := u; queued := q;
           running := r1 ++ t :: r2; finished := fin |}
        {| todo := bs; opened := n; unsubmitted := u; queued := q;
           running := r1 ++ r2; finished := fin ++ [t] |}.

(** The states an execution of the batches can be in. *)
Definition reachable (workers : nat) (batches : list batch) (s : state) : Prop :=
  rtc (step workers) (initial batches) s.

(** Tasks entered and not yet completed. *)
Definition active (s : state) : list task :=
  unsubmitted s ++ queued s ++ running s.

Definition link_of (t : task) : option string := module_link (snd t).

End Pool.

(** * Derived descriptions

    Functions and predicates read off the source, in which the properties
    below are stated and proved. *)

(** [m] keeps the invariant [P] of the state, whatever it returns. *)
Definition preserves {S A} (P : S -> Prop) (m : M S A) : Prop :=
  forall s, P s -> P (snd (m s)).

(** ** The scanner *)

(** What a line other than a closing one does to the reference of the block
    it is in: lines 52 to 59. *)
Definition update_md (line : string) (md : ModuleDownload) : ModuleDownload :=
  match Re.re_match_group Re.source_re "LINK" line with
  | Some l => set_module_link l md
  | None =>
      match Re.re_match_group Re.version_re "VERSION" line with
      | Some v => set_version v md
      | None => md
      end
  end.

(** What the closing line does with the reference of the block: lines 44
    to 49. *)
Definition close_md (md : ModuleDownload) (s : scanner) : scanner :=
  match module_link md with
  | None =>
      {| modules_found := modules_found s; in_module := false; curr_md := None;
         scan_log := scan_log s ++ [(WARNING, no_source_warning md)] |}
  | Some _ =>
      {| modules_found := modules_found s ++ [md]; in_module := false;
         curr_md := None; scan_log := scan_log s |}
  end.

(** The scanner as each file starts: lines 34 and 35. *)
Definition reset (s : scanner) : scanner :=
  {| modules_found := modules_found s; in_module := false; curr_md := None;
     scan_log := scan_log s |}.

(** The scanner is inside a block exactly when it holds a reference. *)
Definition coherent (s : scanner) : Prop :=
  in_module s = true -> is_Some (curr_md s).

(** Every reference found so far has its link set. *)
Definition all_linked (s : scanner) : Prop :=
  Forall (fun m => is_Some (module_link m)) (modules_found s).

(** Whether the scanner is inside a block after the lines [ls], having been
    [inside] or not before them: the value [in_module] takes. *)
Fixpoint block_state (inside : bool) (ls : list string) : bool :=
  match ls with
  | [] => inside
  | l :: ls' =>
      block_state
        (if inside then negb (startswith l "}") else startswith l "module") ls'
  end.

(** Two scanner states that differ at most in the variables of the file being
    read. *)
Definition same_findings (s s' : scanner) : Prop :=
  modules_found s = modules_found s' /\ scan_log s = scan_log s'.

(** ** The executor *)

(** The predicate answers [True] for the link of [m]. *)
Definition eligible (should_download_module : option string -> result bool)
    (m : ModuleDownload) : bool :=
  match should_download_module (module_link m) with
  | Returned true => true
  | _ => false
  end.

(** The lines one task adds to the log, under the registry settings [r]. *)
Definition task_log (ld : loader)
    (should_download_module : option string -> result bool)
    (r : registry) (m : ModuleDownload) : list log_record :=
  if eligible should_download_module m then
    (INFO, "Downloading module " +:+ address m) ::
    match ld r (load_call_of m) with
    | Returned (Some true) => []
    | Returned _ => [(WARNING, failed_warning m)]
    | Raised e => [(WARNING, unable_warning m e)]
    end
  else [].

(** All references of the batches, in the order the tasks are submitted. *)
Definition all_tasks (batches : list batch) : list ModuleDownload :=
  concat (map dict_values batches).

(** ** The planner and the pool *)

(** A batch as the planner builds it: no key twice, and every reference
    stored under its own link. *)
Definition batch_wf (b : batch) : Prop :=
  NoDup (dict_keys b) /\ Forall (fun kv => fst kv = module_link (snd kv)) b.

(** The number of batches, from the first on, that hold [link]. *)
Fixpoint leading (link : option string) (batches : list batch) : nat :=
  match batches with
  | [] => 0
  | b :: rest => if dict_in link b then S (leading link rest) else 0
  end.

(** First fit: the reference goes to the first batch that does not hold its
    link, and to a new last batch when all do. *)
Fixpoint first_fit (m : ModuleDownload) (batches : list batch) : list batch :=
  match batches with
  | [] => [dict_set (module_link m) m []]
  | b :: rest =>
      if dict_in (module_link m) b then b :: first_fit m rest
      else dict_set (module_link m) m b :: rest
  end.

(** Whether the assignment the loop body is about to make for [m] stores it
    under a key that is not in use: a new batch, or a batch without the
    link. *)
Definition writes_free_slot (m : ModuleDownload) (batches : list batch) : bool :=
  let found := last_collision (module_link m) batches 0 (-1) in
  if (found =? Z.of_nat (length batches) - 1)%Z then true
  else
    match py_index (length batches) (found + 1) with
    | Some j =>
        match batches !! j with
        | Some b => negb (dict_in (module_link m) b)
        | None => false
        end
    | None => false
    end.

(** What holds of every state of the pool that runs [batches]. *)
Record pool_inv (batches : list batch) (s : Pool.state) : Prop := {
  inv_todo : Pool.todo s = drop (Pool.opened s) batches;
  inv_current : forall t, t ∈ Pool.active s -> S (fst t) = Pool.opened s;
  inv_links : NoDup (map Pool.link_of (Pool.active s));
  inv_done : forall j b m,
    j < Pool.opened s -> batches !! j = Some b -> m ∈ dict_values b ->
    (j, m) ∈ Pool.finished s \/ (j, m) ∈ Pool.active s
}.

(** ** Addresses *)

(** [':' in s] *)
Fixpoint has_colon (s : string) : bool :=
  match s with
  | EmptyString => false
  | String c s' => Ascii.eqb c ":" || has_colon s'
  end.

(** * Sample trees, references and loaders *)

Definition nl : string := String (ascii_of_nat 10) EmptyString.

Definition world0 : world :=
  {| settings := {| download_external_modules := false; root_dir := None |};
     log := []; loads := [] |}.

(** A tree with one directory [dir] holding one file [name] whose iteration
    yields [ls]. *)
Definition single_file_fs (dir name : string) (ls : list string) : filesystem :=
  {| walk := fun _ => [(dir, [], [name])];
     open_ := fun _ => Returned {| lines := ls; ending := EOF |} |}.

(** [fs] with the file at [file] replaced by the readable file [f]. *)
Definition with_file (fs : filesystem) (file : string) (f : open_file)
    : filesystem :=
  {| walk := walk fs;
     open_ := fun p => if String.eqb p file then Returned f else open_ fs p |}.

(** [quoted s] is [s] between double quotes. *)
Definition quoted (s : string) : string :=
  String Re.quote s +:+ String Re.quote EmptyString.

Definition opening_line : string := "module " +:+ quoted "m" +:+ " {" +:+ nl.
Definition closing_line : string := "}" +:+ nl.
Definition source_x_line : string := "  source = " +:+ quoted "x" +:+ nl.
Definition version_line : string := "  version = " +:+ quoted "v1.2.3" +:+ nl.
Definition empty_source_line : string :=
  "  source = " +:+ quoted EmptyString +:+ nl.

(** A block whose source is the empty string. *)
Definition empty_source_fs : filesystem :=
  single_file_fs "/repo" "main.tf"
    [opening_line; empty_source_line; closing_line].

Definition no_such_file (p : string) : exn :=
  Exn FileNotFoundError ("[Errno 2] No such file or directory: '" +:+ p +:+ "'").

(** A tree whose first file is listed by the walk and cannot be opened (a
    dangling link, or a file removed in between), and whose second file
    declares a module. *)
Definition gone_fs : filesystem :=
  {| walk := fun _ => [("/repo", [], ["gone.tf"; "main.tf"])];
     open_ := fun p =>
       if String.eqb p "/repo/main.tf"
       then Returned {| lines := [opening_line; source_x_line; closing_line];
                        ending := EOF |}
       else Raised (no_such_file p) |}.

(** A tree whose first file stops decoding after its first block. *)
Definition undecodable_fs : filesystem :=
  {| walk := fun _ => [("/repo", [], ["bad.tf"; "main.tf"])];
     open_ := fun p =>
       if String.eqb p "/repo/main.tf"
       then Returned {| lines := [opening_line; source_x_line; closing_line];
                        ending := EOF |}
       else Returned {| lines := [opening_line; closing_line];
                        ending := ReadError
                                    (Exn UnicodeDecodeError
                                       "'utf-8' codec can't decode byte 0xff") |} |}.

Definition latest_version_line : string :=
  "  version = " +:+ quoted "latest" +:+ nl.

(** A loader that fails on the link [bad] and loads everything else. *)
Definition failing_loader (bad : string) : loader :=
  fun _ c =>
    if bool_decide (call_link c = Some bad)
    then Raised (Exn OtherException "fatal: repository not found")
    else Returned (Some true).

Definition ref_a : ModuleDownload :=
  {| source_dir := "/repo"; module_link := Some "git::a"; version := None |}.
Definition ref_a1 : ModuleDownload :=
  {| source_dir := "/repo"; module_link := Some "git::a"; version := Some "1.0.0" |}.
Definition ref_b : ModuleDownload :=
  {| source_dir := "/repo"; module_link := Some "git::b"; version := None |}.

Definition two_batches : list batch :=
  [[(Some "git::a", ref_a); (Some "git::b", ref_b)]; [(Some "git::a", ref_a1)]].

(** The reference [ref_a] with a version that was declared and is empty, as
    the scanner leaves it for a quoted value without a digit. *)
Definition ref_a_blank : ModuleDownload :=
  {| source_dir := "/repo"; module_link := Some "git::a";
     version := Some EmptyString |}.

(** The pool of [two_batches] while the two tasks of the first batch are in
    flight. *)
Definition first_batch_in_flight : Pool.state :=
  {| Pool.todo := [[(Some "git::a", ref_a1)]]; Pool.opened := 1;
     Pool.unsubmitted := []; Pool.queued := [];
     Pool.running := [(0, ref_a); (0, ref_b)]; Pool.finished := [] |}.


(** * Further descriptions *)

(** ** The planner *)

(** The number of references of [ms] whose link is [link]. *)
Definition count_link (link : option string) (ms : list ModuleDownload) : nat :=
  length (List.filter (fun m => bool_decide (module_link m = link)) ms).

(** From the batch at position [leading link batches] on, no batch holds
    [link]: the batches that hold it are the first ones. *)
Definition tight (link : option string) (batches : list batch) : Prop :=
  Forall (fun b => dict_in link b = false) (drop (leading link batches) batches).

(** The batch that holds the single reference [m]. *)
Definition singleton_batch (m : ModuleDownload) : batch := [(module_link m, m)].

(** The batch that holds the references [ms], in this order. *)
Definition batch_of (ms : list ModuleDownload) : batch :=
  map (fun m => (module_link m, m)) ms.

Definition ref_c : ModuleDownload :=
  {| source_dir := "/repo"; module_link := Some "git::c"; version := None |}.
Definition ref_a2 : ModuleDownload :=
  {| source_dir := "/repo/net"; module_link := Some "git::a"; version := Some "2" |}.

(** ** Deduplication *)

(** The dictionary of line 88 once the references [ms] are stored in it. *)
Definition address_dict (ms : list ModuleDownload) : odict string ModuleDownload :=
  fold_left (fun d m => dict_set (address m) m d) ms [].

(** A dictionary as line 88 builds it: no address twice, and every reference
    stored under its own address. *)
Definition address_wf (d : odict string ModuleDownload) : Prop :=
  NoDup (dict_keys d) /\ Forall (fun kv => fst kv = address (snd kv)) d.

Definition ref_a_copy : ModuleDownload :=
  {| source_dir := "/repo/net"; module_link := Some "git::a"; version := None |}.

(** ** [load_tf_modules] as a whole *)

(** The registry settings lines 72 and 73 leave. *)
Definition enabled_for (path : string) : registry :=
  {| download_external_modules := true; root_dir := Some path |}.


(** A loader that loads everything. *)
Definition loading_loader : loader := fun _ _ => Returned (Some true).

(** A loader that answers with a content that is not loaded. *)
Definition idle_loader : loader := fun _ _ => Returned (Some false).

(** ** [find_modules] as a whole *)

(** The scanner state after the opening line of a block in the file [name]
    of [root]. *)
Definition entered (root name : string) (s : scanner) : scanner :=
  {| modules_found := modules_found s; in_module := true;
     curr_md := Some (new_ModuleDownload
                        (os_path_dirname (os_path_join root [name])));
     scan_log := scan_log s |}.

(** The scanner state after a line of the body of a block whose reference
    was [md]. *)
Definition inside (line : string) (md : ModuleDownload) (s : scanner) : scanner :=
  {| modules_found := modules_found s; in_module := true;
     curr_md := Some (update_md line md); scan_log := scan_log s |}.

(** [name] is a file with the extension [.tf] of the directory [root] that
    the walk of [path] lists. *)
Definition walked (fs : filesystem) (path root name : string) : Prop :=
  exists dirs files,
    (root, dirs, files) ∈ walk fs path /\ name ∈ files /\
    endswith name ".tf" = true.

(** A tree with a text file next to a configuration file. *)
Definition mixed_fs : filesystem :=
  {| walk := fun _ => [("/repo", [], ["notes.txt"; "main.tf"])];
     open_ := fun p =>
       if String.eqb p "/repo/main.tf"
       then Returned {| lines := [opening_line; source_x_line; closing_line];
                        ending := EOF |}
       else Raised (Exn PermissionError "[Errno 13] Permission denied") |}.


(** The scanner with nothing found and nothing logged, outside any block. *)
Definition blank : scanner :=
  {| modules_found := []; in_module := false; curr_md := None; scan_log := [] |}.

(** What the file [name] of [root] contributes on its own: the references of
    its blocks, and the lines it makes the scanner log. *)
Definition file_report (fs : filesystem) (path root name : string)
    : list ModuleDownload * list log_record :=
  if endswith name ".tf" then
    match open_ fs (os_path_join path [root; name]) with
    | Returned f =>
        let s := snd (for_each (lines f) (scan_line root name) blank) in
        (modules_found s,
         scan_log s ++
         match ending f with
         | EOF => []
         | ReadError e =>
             [(WARNING, skipping_warning (os_path_join path [root; name]) e)]
         end)
    | Raised _ => ([], [])
    end
  else ([], []).

(** The reports [rs] put together, in order. *)
Definition joined (rs : list (list ModuleDownload * list log_record))
    : list ModuleDownload * list log_record :=
  (concat (map fst rs), concat (map snd rs)).

(** What one entry of the walk contributes, and what the whole walk does. *)
Definition entry_report (fs : filesystem) (path : string)
    (entry : string * list string * list string)
    : list ModuleDownload * list log_record :=
  joined (map (file_report fs path (fst (fst entry))) (snd entry)).

Definition tree_report (fs : filesystem) (path : string)
    : list ModuleDownload * list log_record :=
  joined (map (entry_report fs path) (walk fs path)).


(** What the scanner keeps when every reference it creates satisfies [Q] and
    the lines of a body keep [Q]. *)
Definition scanner_inv (Q : ModuleDownload -> Prop) (s : scanner) : Prop :=
  coherent s /\ Forall Q (modules_found s) /\
  forall md, curr_md s = Some md -> Q md.

(** ** Paths *)

(** ['/' in s] *)
Fixpoint has_slash (s : string) : bool :=
  match s with
  | EmptyString => false
  | String c s' => Ascii.eqb c "/" || has_slash s'
  end.

(** Whether the last character of [s] is a slash, by recursion on [s]. *)
Fixpoint ends_slash (s : string) : bool :=
  match s with
  | EmptyString => false
  | String c s' =>
      match s' with
      | EmptyString => Ascii.eqb c "/"
      | String _ _ => ends_slash s'
      end
  end.

(** ** The patterns *)

(** The loop of a named group in [Re.matches], with what the group has taken
    so far: the longest repetition first, then the rest of the pattern. *)
Fixpoint group_from (name : string) (k : Re.cls) (r : list Re.atom)
    (acc : string) (prev : option ascii) (s : string) {struct s}
    : option (list (string * string)) :=
  match s with
  | String c s' =>
      if Re.in_cls k c then
        match group_from name k r (acc +:+ String c EmptyString) (Some c) s' with
        | Some g => Some g
        | None =>
            match Re.matches r prev s with
            | Some g => Some ((name, acc) :: g)
            | None => None
            end
        end
      else
        match Re.matches r prev s with
        | Some g => Some ((name, acc) :: g)
        | None => None
        end
  | EmptyString =>
      match Re.matches r prev s with
      | Some g => Some ((name, acc) :: g)
      | None => None
      end
  end.

(** [s] is empty or starts with a decimal digit. *)
Definition digit_led (s : string) : Prop :=
  match s with
  | EmptyString => True
  | String c _ => Re.is_digit c = true
  end.

(** No character of [s] is a newline. *)
Fixpoint one_line (s : string) : bool :=
  match s with
  | EmptyString => true
  | String c s' => Re.in_cls Re.Dot c && one_line s'
  end.

(** The end of the version pattern: [[^\d]*], the group, the closing quote. *)
Definition version_tail : list Re.atom :=
  [Re.Star Re.NotDigit; Re.Group "VERSION" Re.Dot; Re.Lit Re.quote].

(** The version of a reference is unset, or empty, or starts with a digit. *)
Definition version_normal (m : ModuleDownload) : Prop :=
  match version m with
  | None => True
  | Some v => digit_led v
  end.

Definition worded_version_fs : filesystem :=
  single_file_fs "/repo" "main.tf"
    [opening_line; source_x_line; latest_version_line; closing_line].

(** ** The worker pool *)

(** The tasks of [batches], the first of which has the index [n]. *)
Fixpoint tasks_from (n : nat) (batches : list batch) : list Pool.task :=
  match batches with
  | [] => []
  | b :: rest => Pool.tasks_of n b ++ tasks_from (S n) rest
  end.

(** ** Fixtures of the whole run *)

(** A predicate that fails on the link [bad] and lets everything else
    through. *)
Definition failing_predicate (bad : string) (link : option string)
    : result bool :=
  if bool_decide (link = Some bad)
  then Raised (Exn OtherException "predicate failed")
  else Returned true.

(** What the loader is given as a version: [latest], or a string that starts
    with a digit. *)
Definition version_argument_ok (v : string) : Prop :=
  v = "latest" \/ exists c v', v = String c v' /\ Re.is_digit c = true.

(** * Properties *)

(** ** The monad *)

Section MonadFacts.
Context {S : Type}.
Implicit Types P : S -> Prop.

Lemma preserves_ret {A} P (a : A) : preserves P (ret a).
Proof. intros s H. exact H. Qed.

Lemma preserves_raise {A} P e : preserves P (@raise S A e).
Proof. intros s H. exact H. Qed.

Lemma preserves_gets {A} P (f : S -> A) : preserves P (gets f).
Proof. intros s H. exact H. Qed.

Lemma preserves_modify P (f : S -> S) :
  (forall s, P s -> P (f s)) -> preserves P (modify f).
Proof. intros Hf s H. apply Hf, H. Qed.

Lemma preserves_bind {A B} P (m : M S A) (k : A -> M S B) :
  preserves P m -> (forall a, preserves P (k a)) -> preserves P (bind m k).
Proof.
  intros Hm Hk s H. unfold bind. specialize (Hm s H).
  destruct (m s) as [[a|e] s']; simpl in *.
  - apply Hk, Hm.
  - exact Hm.
Qed.

Lemma preserves_try_except {A} P (m : M S A) handled h :
  preserves P m -> (forall e, preserves P (h e)) ->
  preserves P (try_except m handled h).
Proof.
  intros Hm Hh s H. unfold try_except. specialize (Hm s H).
  destruct (m s) as [[a|e] s']; simpl in *; [exact Hm|].
  destruct (handled e); [apply Hh, Hm | exact Hm].
Qed.

Lemma preserves_for_each {A} P (l : list A) (body : A -> M S unit) :
  (forall x, preserves P (body x)) -> preserves P (for_each l body).
Proof.
  intros Hb. induction l as [|x l IH]; simpl.
  - apply preserves_ret.
  - apply preserves_bind; [apply Hb | intros _; exact IH].
Qed.

Lemma for_each_app {A} (l1 l2 : list A) (body : A -> M S unit) s :
  for_each (l1 ++ l2) body s =
  (for_each l1 body >> for_each l2 body) s.
Proof.
  revert s. induction l1 as [|x l1 IH]; intros s; simpl.
  - reflexivity.
  - unfold bind. destruct (body x s) as [[[]|e] s']; [|reflexivity].
    rewrite IH. reflexivity.
Qed.
(** Two loops whose bodies agree up to a relation on states agree up to
    it. *)
Lemma for_each_related {A} (R : S -> S -> Prop) (l : list A)
    (body body' : A -> M S unit) :
  (forall x s s', R s s' ->
     fst (body x s) = fst (body' x s') /\ R (snd (body x s)) (snd (body' x s'))) ->
  forall s s', R s s' ->
  fst (for_each l body s) = fst (for_each l body' s') /\
  R (snd (for_each l body s)) (snd (for_each l body' s')).
Proof.
  intros Hb. induction l as [|x l IH]; intros s s' HR; simpl.
  - auto.
  - unfold bind. destruct (Hb x s s' HR) as [Hf Hs].
    destruct (body x s) as [[[]|e] s1], (body' x s') as [[[]|e'] s1'];
      simpl in *; try discriminate.
    + apply IH, Hs.
    + auto.
Qed.
End MonadFacts.

(** ** The scanner, line by line *)

Arguments Re.re_match_group : simpl never.
Arguments os_path_dirname : simpl never.
Arguments os_path_join : simpl never.



Lemma scan_line_outside root name line s :
  in_module s = false -> startswith line "module" = false ->
  scan_line root name line s = (Returned tt, s).
Proof.
  intros Hin Hst. unfold scan_line, bind, gets. simpl.
  rewrite Hin, Hst. simpl. rewrite Hin. reflexivity.
Qed.

Lemma scan_line_enter root name line s :
  in_module s = false -> startswith line "module" = true ->
  scan_line root name line s =
  (Returned tt,
   {| modules_found := modules_found s; in_module := true;
      curr_md := Some (new_ModuleDownload
                         (os_path_dirname (os_path_join root [name])));
      scan_log := scan_log s |}).
Proof.
  intros Hin Hst. unfold scan_line, bind, gets. simpl.
  rewrite Hin, Hst. reflexivity.
Qed.

Lemma scan_line_close root name line s md :
  in_module s = true -> curr_md s = Some md -> startswith line "}" = true ->
  scan_line root name line s = (Returned tt, close_md md s).
Proof.
  intros Hin Hmd Hst. destruct s as [mf im cm lg]. simpl in *. subst im cm.
  unfold scan_line, close_md, the_curr_md, bind, gets. simpl.
  rewrite Hst. simpl.
  destruct (module_link md); reflexivity.
Qed.

Lemma scan_line_inside root name line s md :
  in_module s = true -> curr_md s = Some md -> startswith line "}" = false ->
  scan_line root name line s =
  (Returned tt,
   {| modules_found := modules_found s; in_module := true;
      curr_md := Some (update_md line md); scan_log := scan_log s |}).
Proof.
  intros Hin Hmd Hst. destruct s as [mf im cm lg]. simpl in *. subst im cm.
  unfold scan_line, update_md, the_curr_md, bind, gets. simpl.
  rewrite Hst.
  destruct (Re.re_match_group Re.source_re "LINK" line); [reflexivity|].
  destruct (Re.re_match_group Re.version_re "VERSION" line); reflexivity.
Qed.



(** Walks through a monadic program with the lemmas above; [leaf] closes
    the calls already dealt with. *)
Ltac preserve_with leaf :=
  repeat first
    [ leaf
    | apply preserves_ret | apply preserves_gets | apply preserves_raise
    | apply preserves_bind | apply preserves_try_except
    | apply preserves_for_each
    | match goal with
      | |- forall _, _ => intro
      | |- preserves _ (match ?x with _ => _ end) => destruct x eqn:?
      end ].

Lemma scan_line_all_linked root name line :
  preserves all_linked (scan_line root name line).
Proof.
  unfold scan_line, the_curr_md, scan_warning. preserve_with fail;
    try (apply preserves_modify; unfold all_linked; simpl; intros; assumption).
  apply preserves_modify. unfold all_linked. simpl. intros st Hst.
  apply Forall_app. split; [assumption|].
  constructor; [|constructor]. eauto.
Qed.

Lemma scan_file_all_linked fs path root name :
  preserves all_linked (scan_file fs path root name).
Proof.
  unfold scan_file, for_line_in, scan_warning.
  preserve_with ltac:(apply scan_line_all_linked);
    apply preserves_modify; unfold all_linked; simpl; intros; assumption.
Qed.

Lemma find_modules_body_spec fs path s0 :
  all_linked (snd (find_modules_body fs path s0)) /\
  forall ms, fst (find_modules_body fs path s0) = Returned ms ->
             ms = modules_found (snd (find_modules_body fs path s0)).
Proof.
  unfold find_modules_body, bind, modify, gets. simpl.
  pose proof (preserves_for_each all_linked (walk fs path)
    (fun entry => for_each (snd entry) (scan_file fs path (fst (fst entry))))) as Hp.
  specialize (Hp ltac:(intros x; apply preserves_for_each; intros y;
                        apply scan_file_all_linked) (set_modules_found [] s0)).
  destruct (for_each (walk fs path) _ (set_modules_found [] s0)) as [[[]|e] s1];
    simpl in *.
  - split; [apply Hp; constructor|]. intros ms [= <-]. reflexivity.
  - split; [apply Hp; constructor|]. intros ms [=].
Qed.


Lemma scan_line_total root name line s :
  coherent s ->
  exists s', scan_line root name line s = (Returned tt, s') /\ coherent s' /\
             in_module s' = block_state (in_module s) [line].
Proof.
  intros Hc. unfold coherent in Hc. simpl.
  destruct (in_module s) eqn:Hin.
  - destruct (Hc eq_refl) as [md Hmd].
    destruct (startswith line "}") eqn:Hst.
    + rewrite (scan_line_close _ _ _ _ md Hin Hmd Hst).
      eexists; split; [reflexivity|]. unfold coherent, close_md.
      destruct (module_link md); simpl; split; congruence.
    + rewrite (scan_line_inside _ _ _ _ md Hin Hmd Hst).
      eexists; split; [reflexivity|]. unfold coherent. simpl. eauto.
  - destruct (startswith line "module") eqn:Hst.
    + rewrite (scan_line_enter _ _ _ _ Hin Hst).
      eexists; split; [reflexivity|]. unfold coherent. simpl. eauto.
    + rewrite (scan_line_outside _ _ _ _ Hin Hst).
      eexists; split; [reflexivity|]. unfold coherent. split; congruence.
Qed.

(** Scanning lines never raises, and [in_module] follows [block_state]. *)
Lemma scan_lines_total root name ls :
  forall s, coherent s ->
  exists s', for_each ls (scan_line root name) s = (Returned tt, s') /\
             coherent s' /\ in_module s' = block_state (in_module s) ls.
Proof.
  induction ls as [|l ls IH]; intros s Hc; simpl.
  - exists s. auto.
  - destruct (scan_line_total root name l s Hc) as (s1 & E1 & Hc1 & Hin1).
    destruct (IH s1 Hc1) as (s2 & E2 & Hc2 & Hin2).
    exists s2. unfold bind. rewrite E1, E2. simpl in Hin1.
    rewrite Hin2, Hin1. auto.
Qed.

(** The body of a block, as long as no line closes it, only rewrites the
    reference of the block. *)
Lemma scan_body root name body :
  forall s md,
  in_module s = true -> curr_md s = Some md ->
  Forall (fun l => startswith l "}" = false) body ->
  for_each body (scan_line root name) s =
  (Returned tt,
   {| modules_found := modules_found s; in_module := true;
      curr_md := Some (fold_left (fun md l => update_md l md) body md);
      scan_log := scan_log s |}).
Proof.
  induction body as [|l body IH]; intros s md Hin Hmd Hall; simpl.
  - destruct s; simpl in *; subst; reflexivity.
  - inversion Hall as [|? ? Hl Hrest]; subst.
    unfold bind. rewrite (scan_line_inside _ _ _ _ md Hin Hmd Hl).
    rewrite (IH _ (update_md l md)); [reflexivity|reflexivity|reflexivity|assumption].
Qed.

(** A whole block met outside any block: the opening line, a body, the
    closing line. *)
Lemma scan_block root name opener body closer s :
  in_module s = false ->
  startswith opener "module" = true ->
  Forall (fun l => startswith l "}" = false) body ->
  startswith closer "}" = true ->
  for_each (opener :: body ++ [closer]) (scan_line root name) s =
  (Returned tt,
   close_md
     (fold_left (fun md l => update_md l md) body
        (new_ModuleDownload (os_path_dirname (os_path_join root [name]))))
     s).
Proof.
  intros Hin Hop Hbody Hcl.
  change (for_each (opener :: body ++ [closer]) (scan_line root name) s)
    with ((scan_line root name opener >>
           for_each (body ++ [closer]) (scan_line root name)) s).
  unfold bind at 1. rewrite (scan_line_enter _ _ _ _ Hin Hop).
  rewrite for_each_app. unfold bind at 1.
  erewrite scan_body; [|reflexivity|reflexivity|assumption]. simpl.
  unfold bind. erewrite scan_line_close; [|reflexivity|reflexivity|assumption].
  unfold close_md. simpl.
  destruct (module_link _); reflexivity.
Qed.

(** A line of the body never unsets the link, and leaves the version alone
    unless it declares one. *)
Lemma update_md_link line md :
  is_Some (module_link md) -> is_Some (module_link (update_md line md)).
Proof.
  unfold update_md. intros H.
  destruct (Re.re_match_group Re.source_re "LINK" line); [simpl; eauto|].
  destruct (Re.re_match_group Re.version_re "VERSION" line); assumption.
Qed.

Lemma update_md_version line md :
  Re.re_match_group Re.version_re "VERSION" line = None ->
  version (update_md line md) = version md.
Proof.
  unfold update_md. intros ->.
  destruct (Re.re_match_group Re.source_re "LINK" line); reflexivity.
Qed.

Lemma update_md_source_dir line md :
  source_dir (update_md line md) = source_dir md.
Proof.
  unfold update_md.
  destruct (Re.re_match_group Re.source_re "LINK" line); [reflexivity|].
  destruct (Re.re_match_group Re.version_re "VERSION" line); reflexivity.
Qed.

Lemma fold_update_link body :
  forall md,
  is_Some (module_link md) \/
  Exists (fun l => is_Some (Re.re_match_group Re.source_re "LINK" l)) body ->
  is_Some (module_link (fold_left (fun md l => update_md l md) body md)).
Proof.
  induction body as [|l body IH]; intros md H; simpl.
  - destruct H as [H|H]; [assumption|inversion H].
  - apply IH. destruct H as [H|H].
    + left. apply update_md_link, H.
    + inversion H as [? ? Hl|? ? Hrest]; subst; [left|right; assumption].
      unfold update_md. destruct Hl as [x ->]. simpl. eauto.
Qed.

Lemma fold_update_version body :
  forall md,
  Forall (fun l => Re.re_match_group Re.version_re "VERSION" l = None) body ->
  version (fold_left (fun md l => update_md l md) body md) = version md.
Proof.
  induction body as [|l body IH]; intros md H; simpl; [reflexivity|].
  inversion H; subst. rewrite IH by assumption. apply update_md_version.
  assumption.
Qed.

(** ** [find_modules] *)

Lemma scan_file_skips_other_names fs path root name s :
  endswith name ".tf" = false -> scan_file fs path root name s = (Returned tt, s).
Proof. intros H. unfold scan_file. rewrite H. reflexivity. Qed.

(** An [open] that raises is not guarded by the [try]: the exception leaves
    [scan_file]. *)
Lemma scan_file_open_raises fs path root name e s :
  endswith name ".tf" = true ->
  open_ fs (os_path_join path [root; name]) = Raised e ->
  scan_file fs path root name s = (Raised e, s).
Proof. intros H E. unfold scan_file. rewrite H, E. reflexivity. Qed.

(** A file read to its end. *)
Lemma scan_file_eof fs path root name ls s s1 :
  endswith name ".tf" = true ->
  open_ fs (os_path_join path [root; name]) =
    Returned {| lines := ls; ending := EOF |} ->
  for_each ls (scan_line root name) (reset s) = (Returned tt, s1) ->
  scan_file fs path root name s = (Returned tt, s1).
Proof.
  intros H E Hls. unfold scan_file. rewrite H, E. simpl.
  unfold try_except, for_line_in, bind, modify. simpl.
  change (set_curr_md None (set_in_module false s)) with (reset s).
  rewrite Hls. reflexivity.
Qed.

(** A file whose iteration raises one of the two classes of the [except]
    clause: what was found before stays, the file is reported, and the scan
    goes on. *)
Lemma scan_file_read_error fs path root name ls e s :
  endswith name ".tf" = true ->
  open_ fs (os_path_join path [root; name]) =
    Returned {| lines := ls; ending := ReadError e |} ->
  scan_handles e = true ->
  exists s1,
    for_each ls (scan_line root name) (reset s) = (Returned tt, s1) /\
    scan_file fs path root name s =
    (Returned tt,
     add_scan_log
       (WARNING, skipping_warning (os_path_join path [root; name]) e) s1).
Proof.
  intros H E Hh.
  destruct (scan_lines_total root name ls (reset s)) as (s1 & E1 & _ & _).
  { unfold coherent, reset. simpl. discriminate. }
  exists s1. split; [exact E1|].
  unfold scan_file. rewrite H, E. simpl.
  unfold try_except, for_line_in, bind, modify. simpl.
  change (set_curr_md None (set_in_module false s)) with (reset s).
  rewrite E1. simpl. unfold raise. rewrite Hh. reflexivity.
Qed.

Lemma find_modules_single_file dir name ls path l s1 :
  endswith name ".tf" = true ->
  for_each ls (scan_line dir name)
    {| modules_found := []; in_module := false; curr_md := None;
       scan_log := l |} = (Returned tt, s1) ->
  find_modules (single_file_fs dir name ls) path l =
  (Returned (modules_found s1), scan_log s1).
Proof.
  intros H Hls. unfold find_modules, find_modules_body, bind, modify. simpl.
  unfold bind. simpl.
  erewrite scan_file_eof; [| exact H | reflexivity | exact Hls].
  reflexivity.
Qed.

Lemma find_modules_all_linked fs path l ms l' :
  find_modules fs path l = (Returned ms, l') ->
  Forall (fun m => is_Some (module_link m)) ms.
Proof.
  unfold find_modules. intros H.
  pose proof (find_modules_body_spec fs path
    {| modules_found := []; in_module := false; curr_md := None;
       scan_log := l |}) as [Hl Hr].
  destruct (find_modules_body fs path _) as [r s]. simpl in *.
  injection H as -> _. rewrite (Hr ms eq_refl). exact Hl.
Qed.

(** ** A block left open at the end of a file *)

Lemma reset_same_findings s s' : same_findings s s' -> reset s = reset s'.
Proof. intros [Hm Hl]. unfold reset. rewrite Hm, Hl. reflexivity. Qed.

Lemma scan_file_same_findings fs path root name s s' :
  same_findings s s' ->
  fst (scan_file fs path root name s) = fst (scan_file fs path root name s') /\
  same_findings (snd (scan_file fs path root name s))
                (snd (scan_file fs path root name s')).
Proof.
  intros HR. unfold scan_file.
  destruct (negb (endswith name ".tf")); [auto|].
  destruct (open_ fs (os_path_join path [root; name])) as [f|e]; [|auto].
  unfold try_except, bind, modify. simpl.
  change (set_curr_md None (set_in_module false s)) with (reset s).
  change (set_curr_md None (set_in_module false s')) with (reset s').
  rewrite (reset_same_findings s s' HR).
  split; [reflexivity | split; reflexivity].
Qed.

Lemma scan_file_with_file_other fs file f path root name s :
  String.eqb (os_path_join path [root; name]) file = false ->
  scan_file (with_file fs file f) path root name s =
  scan_file fs path root name s.
Proof. intros H. unfold scan_file, with_file. simpl. rewrite H. reflexivity. Qed.

(** Lines that end outside a block, then a block that is never closed: the
    findings are those of the lines before it. *)
Lemma scan_open_ended root name pre opener body s :
  coherent s -> block_state (in_module s) pre = false ->
  startswith opener "module" = true ->
  Forall (fun l => startswith l "}" = false) body ->
  exists s1 s2,
    for_each pre (scan_line root name) s = (Returned tt, s1) /\
    for_each (pre ++ opener :: body) (scan_line root name) s = (Returned tt, s2) /\
    same_findings s2 s1 /\ in_module s2 = true.
Proof.
  intros Hc Hpre Hop Hbody.
  destruct (scan_lines_total root name pre s Hc) as (s1 & E1 & Hc1 & Hin1).
  rewrite Hpre in Hin1.
  eexists s1, _. split; [exact E1|].
  rewrite for_each_app. unfold bind at 1. rewrite E1.
  change (for_each (opener :: body) (scan_line root name) s1)
    with ((scan_line root name opener >> for_each body (scan_line root name)) s1).
  unfold bind. rewrite (scan_line_enter _ _ _ _ Hin1 Hop).
  erewrite scan_body; [|reflexivity|reflexivity|assumption].
  split; [reflexivity|]. split; [split; reflexivity | reflexivity].
Qed.

Lemma scan_file_open_ended fs file path root name pre opener body s s' :
  block_state false pre = false ->
  startswith opener "module" = true ->
  Forall (fun l => startswith l "}" = false) body ->
  same_findings s s' ->
  let f1 := {| lines := pre ++ opener :: body; ending := EOF |} in
  let f2 := {| lines := pre; ending := EOF |} in
  fst (scan_file (with_file fs file f1) path root name s) =
  fst (scan_file (with_file fs file f2) path root name s') /\
  same_findings (snd (scan_file (with_file fs file f1) path root name s))
                (snd (scan_file (with_file fs file f2) path root name s')).
Proof.
  intros Hpre Hop Hbody HR f1 f2.
  destruct (String.eqb (os_path_join path [root; name]) file) eqn:Hp.
  - destruct (endswith name ".tf") eqn:Hn.
    + destruct (scan_open_ended root name pre opener body (reset s))
        as (s1 & s2 & E1 & E2 & Hs & _); try assumption.
      { unfold coherent, reset. simpl. discriminate. }
      rewrite (scan_file_eof _ path root name (pre ++ opener :: body) s s2);
        [| assumption | simpl; rewrite Hp; reflexivity | exact E2].
      rewrite (scan_file_eof _ path root name pre s' s1);
        [| assumption | simpl; rewrite Hp; reflexivity
         | rewrite <- (reset_same_findings s s' HR); exact E1].
      split; [reflexivity | exact Hs].
    + rewrite !scan_file_skips_other_names by assumption. auto.
  - rewrite !scan_file_with_file_other by assumption.
    apply scan_file_same_findings, HR.
Qed.

(** C10. A file that ends inside a module block (its lines are [pre], which
    end outside any block, then an opening line, then lines none of which
    closes the block) is scanned exactly as the file that stops after [pre]:
    whatever the rest of the tree holds, [find_modules] returns the same
    references and leaves the same log, so the pending reference is not
    emitted and nothing is logged for it. *)
Theorem unterminated_block_silently_dropped
    fs file pre opener body path l :
  block_state false pre = false ->
  startswith opener "module" = true ->
  Forall (fun line => startswith line "}" = false) body ->
  find_modules
    (with_file fs file {| lines := pre ++ opener :: body; ending := EOF |})
    path l =
  find_modules (with_file fs file {| lines := pre; ending := EOF |}) path l.
Proof.
  intros Hpre Hop Hbody. unfold find_modules, find_modules_body.
  unfold bind at 1 3. unfold modify at 1 2. simpl.
  set (s0 := set_modules_found [] _).
  unfold bind.
  pose proof (for_each_related same_findings (walk fs path)
    (fun entry => for_each (snd entry)
       (scan_file (with_file fs file
          {| lines := pre ++ opener :: body; ending := EOF |}) path
          (fst (fst entry))))
    (fun entry => for_each (snd entry)
       (scan_file (with_file fs file {| lines := pre; ending := EOF |}) path
          (fst (fst entry))))) as Hsim.
  destruct (Hsim ltac:(intros x s s' HR; apply for_each_related;
                         [intros y t t' Ht;
                          apply scan_file_open_ended; assumption
                         | exact HR]) s0 s0 ltac:(split; reflexivity))
    as [Hf [Hm Hl]].
  destruct (for_each (walk fs path) _ s0) as [[[]|e] s1],
           (for_each (walk fs path) _ s0) as [[[]|e'] s1'];
    simpl in *; try discriminate.
  - unfold gets. simpl. rewrite Hm, Hl. reflexivity.
  - injection Hf as ->. rewrite Hl. reflexivity.
Qed.

Lemma unterminated_block_silently_dropped_witness :
  find_modules
    (with_file gone_fs "/repo/gone.tf"
       {| lines := [opening_line; source_x_line; closing_line]
                   ++ opening_line :: [source_x_line; version_line];
          ending := EOF |}) "/repo" [] =
  find_modules
    (with_file gone_fs "/repo/gone.tf"
       {| lines := [opening_line; source_x_line; closing_line];
          ending := EOF |}) "/repo" [].
Proof.
  apply (unterminated_block_silently_dropped gone_fs "/repo/gone.tf"
           [opening_line; source_x_line; closing_line] opening_line
           [source_x_line; version_line] "/repo" []).
  - reflexivity.
  - reflexivity.
  - repeat constructor.
Defined.

(** ** What the scanner emits *)

(** C4, as the code has it. Every reference [find_modules] returns has its
    link set (it is not [None]); and a closing line met while the reference of
    the block has no link leaves the references found as they were, logs the
    warning, and returns to the outside of the block. *)
Theorem find_modules_emits_only_linked
    fs path l ms l' root name line s md :
  find_modules fs path l = (Returned ms, l') ->
  in_module s = true -> curr_md s = Some md -> module_link md = None ->
  startswith line "}" = true ->
  Forall (fun m => is_Some (module_link m)) ms /\
  scan_line root name line s =
  (Returned tt,
   {| modules_found := modules_found s; in_module := false; curr_md := None;
      scan_log := scan_log s ++ [(WARNING, no_source_warning md)] |}).
Proof.
  intros Hfind Hin Hmd Hlink Hclose. split.
  - exact (find_modules_all_linked fs path l ms l' Hfind).
  - rewrite (scan_line_close root name line s md Hin Hmd Hclose).
    unfold close_md. rewrite Hlink. reflexivity.
Qed.

Lemma find_modules_emits_only_linked_witness :
  Forall (fun m => is_Some (module_link m))
    [{| source_dir := "/repo"; module_link := Some EmptyString;
       version := None |}] /\
  scan_line "/repo" "main.tf" closing_line
    {| modules_found := []; in_module := true;
       curr_md := Some (new_ModuleDownload "/repo"); scan_log := [] |} =
  (Returned tt,
   {| modules_found := []; in_module := false; curr_md := None;
      scan_log := [(WARNING, "A module at /repo had no source, skipping")] |}).
Proof.
  apply (find_modules_emits_only_linked empty_source_fs "/repo" []
           [{| source_dir := "/repo"; module_link := Some EmptyString;
       version := None |}]
           [] "/repo" "main.tf" closing_line
           {| modules_found := []; in_module := true;
              curr_md := Some (new_ModuleDownload "/repo"); scan_log := [] |}
           (new_ModuleDownload "/repo")).
  - vm_compute. reflexivity.
  - reflexivity.
  - reflexivity.
  - reflexivity.
  - reflexivity.
Defined.

(** C4, as stated, fails: a block whose source is the empty string is
    emitted, with an empty link, and nothing is logged. *)
Lemma find_modules_emits_empty_link :
  exists m,
    find_modules empty_source_fs "/repo" [] = (Returned [m], []) /\
    module_link m = Some EmptyString.
Proof.
  exists {| source_dir := "/repo"; module_link := Some EmptyString;
       version := None |}.
  split; [vm_compute; reflexivity | reflexivity].
Qed.

(** C5. The first file of the tree cannot be opened: [find_modules] raises the
    [FileNotFoundError] of [open], logs nothing, and the module declared by
    the second file is never found. *)
Theorem find_modules_open_failure_is_fatal :
  find_modules gone_fs "/repo" [] =
  (Raised (no_such_file "/repo/gone.tf"), []).
Proof. vm_compute. reflexivity. Qed.

(** The sibling path: the same exception classes raised while the lines are
    read are caught, logged, and the next file is scanned. *)
Lemma find_modules_decode_failure_is_skipped :
  find_modules undecodable_fs "/repo" [] =
  (Returned [{| source_dir := "/repo"; module_link := Some "x"; version := None |}],
   [(WARNING, "A module at /repo had no source, skipping");
    (WARNING, "Skipping /repo/bad.tf because of 'utf-8' codec can't decode byte 0xff")]).
Proof. vm_compute. reflexivity. Qed.

Lemma source_x_line_link :
  Re.re_match_group Re.source_re "LINK" source_x_line = Some "x".
Proof. vm_compute. reflexivity. Qed.

Lemma version_line_not_source :
  Re.re_match_group Re.source_re "LINK" version_line = None.
Proof. vm_compute. reflexivity. Qed.

Lemma version_line_version :
  Re.re_match_group Re.version_re "VERSION" version_line = Some "1.2.3".
Proof. vm_compute. reflexivity. Qed.

(** C9. A file with one block, whatever its opening and closing lines, whose
    body is the two lines [source = "x"] and [version = "v1.2.3"], yields
    exactly one reference, with link [x] and version [1.2.3]; nothing is
    logged. *)
Theorem scan_source_and_version dir name opener closer path l :
  endswith name ".tf" = true ->
  startswith opener "module" = true ->
  startswith closer "}" = true ->
  find_modules
    (single_file_fs dir name [opener; source_x_line; version_line; closer])
    path l =
  (Returned
     [{| source_dir := os_path_dirname (os_path_join dir [name]);
         module_link := Some "x"; version := Some "1.2.3" |}],
   l).
Proof.
  intros Hname Hop Hcl.
  erewrite find_modules_single_file; [| exact Hname |].
  2: { apply (scan_block dir name opener [source_x_line; version_line] closer);
       [reflexivity | exact Hop | repeat constructor | exact Hcl]. }
  cbn [fold_left]. unfold update_md at 2.
  rewrite source_x_line_link. unfold update_md.
  rewrite version_line_not_source, version_line_version.
  reflexivity.
Qed.

Lemma scan_source_and_version_witness :
  find_modules
    (single_file_fs "/repo/net" "main.tf"
       [opening_line; source_x_line; version_line; closing_line])
    "/repo" [] =
  (Returned
     [{| source_dir := "/repo/net"; module_link := Some "x";
         version := Some "1.2.3" |}],
   []).
Proof.
  apply (scan_source_and_version "/repo/net" "main.tf" opening_line
           closing_line "/repo" []); reflexivity.
Defined.

(** ** The executor *)

Section ExecutorFacts.
Variable ld : loader.
Variable should : option string -> result bool.

(** When the predicate answers, the task returns: whatever the loader does is
    handled inside [_download_module]. *)
Lemma download_module_effect m w b :
  should (module_link m) = Returned b ->
  _download_module ld should m w =
  (Returned tt,
   {| settings := settings w;
      log := log w ++ task_log ld should (settings w) m;
      loads := loads w ++ (if b then [load_call_of m] else []) |}).
Proof.
  intros Hs. unfold _download_module, task_log, eligible. rewrite Hs.
  destruct w as [r lg ls]. destruct b; simpl.
  - unfold try_except, bind, logging_info, logging_warning, registry_load,
      bind, modify, gets, add_log, add_load, set_log. simpl.
    destruct (ld r (load_call_of m)) as [[[|]|]|e]; simpl;
      rewrite <- ?app_assoc; reflexivity.
  - unfold ret. rewrite !app_nil_r. reflexivity.
Qed.

(** A submitted task never raises into the loop. *)
Lemma submit_download_module m w :
  submit (_download_module ld should m) w =
  (Returned tt,
   {| settings := settings w;
      log := log w ++ task_log ld should (settings w) m;
      loads := loads w ++
               (if eligible should m then [load_call_of m] else []) |}).
Proof.
  unfold submit, try_except, eligible, task_log, eligible.
  destruct (should (module_link m)) as [b|e] eqn:Hs.
  - rewrite (download_module_effect m w b Hs). unfold task_log, eligible.
    rewrite Hs. destruct b; reflexivity.
  - unfold _download_module. rewrite Hs. unfold raise, ret. simpl.
    destruct w; simpl. rewrite !app_nil_r. reflexivity.
Qed.

Lemma run_tasks ms :
  forall w,
  for_each ms (fun m => submit (_download_module ld should m)) w =
  (Returned tt,
   {| settings := settings w;
      log := log w ++ concat (map (task_log ld should (settings w)) ms);
      loads := loads w ++ map load_call_of (List.filter (eligible should) ms) |}).
Proof.
  induction ms as [|m ms IH]; intros w; simpl.
  - unfold ret. destruct w; simpl. rewrite !app_nil_r. reflexivity.
  - unfold bind. rewrite submit_download_module, IH. simpl.
    rewrite <- !app_assoc.
    destruct (eligible should m); reflexivity.
Qed.

Lemma run_batches_effect batches :
  forall w,
  run_batches ld should batches w =
  (Returned tt,
   {| settings := settings w;
      log := log w ++
             concat (map (task_log ld should (settings w)) (all_tasks batches));
      loads := loads w ++
               map load_call_of
                 (List.filter (eligible should) (all_tasks batches)) |}).
Proof.
  unfold run_batches, all_tasks.
  induction batches as [|b batches IH]; intros w; simpl.
  - unfold ret. destruct w; simpl. rewrite !app_nil_r. reflexivity.
  - unfold bind. rewrite run_tasks, IH. simpl.
    rewrite map_app, concat_app, List.filter_app, map_app, <- !app_assoc.
    reflexivity.
Qed.

End ExecutorFacts.

(** C6. Let the loader raise [e] for the eligible reference [m] of one of the
    batches. Then the task of [m] returns normally and so does the run of all
    batches; the loader has been called once for every eligible reference of
    every batch, in order, those after [m] included; and the warning naming
    the address of [m] and [e] is in the log. *)
Theorem loader_failure_is_isolated ld should batches w b m e :
  b ∈ batches -> m ∈ dict_values b ->
  should (module_link m) = Returned true ->
  ld (settings w) (load_call_of m) = Raised e ->
  fst (_download_module ld should m w) = Returned tt /\
  fst (run_batches ld should batches w) = Returned tt /\
  loads (snd (run_batches ld should batches w)) =
    loads w ++
    map load_call_of (List.filter (eligible should) (all_tasks batches)) /\
  (WARNING, unable_warning m e) ∈ log (snd (run_batches ld should batches w)).
Proof.
  intros Hb Hm Hs He.
  rewrite (download_module_effect ld should m w true Hs).
  rewrite run_batches_effect. simpl.
  repeat split.
  apply elem_of_app. right.
  apply list_elem_of_In, in_concat.
  exists (task_log ld should (settings w) m). split.
  - apply in_map, in_concat. exists (dict_values b).
    split; [apply in_map|]; apply list_elem_of_In; assumption.
  - unfold task_log, eligible. rewrite Hs, He. right. left. reflexivity.
Qed.

Lemma loader_failure_is_isolated_witness :
  fst (_download_module (failing_loader "git::a")
         default_should_download ref_a world0) = Returned tt /\
  fst (run_batches (failing_loader "git::a") default_should_download
         two_batches world0) = Returned tt /\
  loads (snd (run_batches (failing_loader "git::a") default_should_download
                two_batches world0)) =
    [load_call_of ref_a; load_call_of ref_b; load_call_of ref_a1] /\
  (WARNING, "Unable to load module (git::a:None): fatal: repository not found")
    ∈ log (snd (run_batches (failing_loader "git::a") default_should_download
                  two_batches world0)).
Proof.
  apply (loader_failure_is_isolated (failing_loader "git::a")
           default_should_download two_batches world0
           [(Some "git::a", ref_a); (Some "git::b", ref_b)] ref_a
           (Exn OtherException "fatal: repository not found")).
  - apply list_elem_of_here.
  - apply list_elem_of_here.
  - reflexivity.
  - reflexivity.
Defined.

(** C8. A block met outside any block whose body has a source declaration and
    no version declaration yields one reference; and when the predicate lets
    that reference through, the one call made to the loader for it carries the
    version [latest]. *)
Theorem no_version_loads_latest
    root name opener body closer s ld should w :
  in_module s = false ->
  startswith opener "module" = true ->
  Forall (fun line => startswith line "}" = false) body ->
  Forall (fun line => Re.re_match_group Re.version_re "VERSION" line = None)
    body ->
  Exists (fun line => is_Some (Re.re_match_group Re.source_re "LINK" line))
    body ->
  startswith closer "}" = true ->
  exists m,
    for_each (opener :: body ++ [closer]) (scan_line root name) s =
    (Returned tt,
     {| modules_found := modules_found s ++ [m]; in_module := false;
        curr_md := None; scan_log := scan_log s |}) /\
    version m = None /\
    (should (module_link m) = Returned true ->
     loads (snd (_download_module ld should m w)) =
     loads w ++ [{| call_dir := source_dir m; call_link := module_link m;
                    call_version := "latest" |}]).
Proof.
  intros Hin Hop Hbody Hnover Hsrc Hcl.
  set (m := fold_left (fun md l => update_md l md) body
              (new_ModuleDownload (os_path_dirname (os_path_join root [name])))).
  assert (Hlink : is_Some (module_link m))
    by (apply fold_update_link; right; exact Hsrc).
  assert (Hver : version m = None)
    by (unfold m; rewrite fold_update_version by exact Hnover; reflexivity).
  exists m. split; [|split].
  - rewrite (scan_block root name opener body closer s Hin Hop Hbody Hcl).
    fold m. unfold close_md. destruct Hlink as [x ->]. reflexivity.
  - exact Hver.
  - intros Hs. rewrite (download_module_effect ld should m w true Hs). simpl.
    unfold load_call_of, load_version. rewrite Hver. reflexivity.
Qed.

Lemma no_version_loads_latest_witness :
  exists m,
    for_each (opening_line :: [source_x_line] ++ [closing_line])
      (scan_line "/repo" "main.tf")
      {| modules_found := []; in_module := false; curr_md := None;
         scan_log := [] |} =
    (Returned tt,
     {| modules_found := [] ++ [m]; in_module := false; curr_md := None;
        scan_log := [] |}) /\
    version m = None /\
    (default_should_download (module_link m) = Returned true ->
     loads (snd (_download_module (failing_loader "git::a")
                   default_should_download m world0)) =
     [] ++ [{| call_dir := source_dir m; call_link := module_link m;
               call_version := "latest" |}]).
Proof.
  apply (no_version_loads_latest "/repo" "main.tf" opening_line
           [source_x_line] closing_line
           {| modules_found := []; in_module := false; curr_md := None;
              scan_log := [] |}
           (failing_loader "git::a") default_should_download world0).
  - reflexivity.
  - reflexivity.
  - repeat constructor.
  - repeat constructor.
  - apply Exists_cons_hd. exists "x". vm_compute. reflexivity.
  - reflexivity.
Defined.

(** ** Dictionaries *)

Section OdictFacts.
Context {K V : Type} `{EqDecision K}.
Implicit Types (d : odict K V) (k : K) (v : V).

Lemma dict_in_true k d : dict_in k d = true <-> k ∈ dict_keys d.
Proof. unfold dict_in, dict_keys. apply bool_decide_eq_true. Qed.

Lemma dict_in_false k d : dict_in k d = false <-> k ∉ dict_keys d.
Proof. unfold dict_in, dict_keys. apply bool_decide_eq_false. Qed.

(** Assigning to a key that is not in use appends the entry. *)
Lemma dict_set_fresh k v d : dict_in k d = false -> dict_set k v d = d ++ [(k, v)].
Proof.
  rewrite dict_in_false. unfold dict_keys.
  induction d as [|[k' v'] d IH]; intros Hk; simpl; [reflexivity|].
  simpl in Hk. apply not_elem_of_cons in Hk as [Hne Hk].
  destruct (decide (k = k')); [contradiction|].
  rewrite IH by exact Hk. reflexivity.
Qed.
End OdictFacts.

(** ** The planner *)

Lemma last_collision_leading link batches :
  forall i found,
  last_collision link batches i found =
  if Nat.eqb (leading link batches) 0 then found
  else (i + Z.of_nat (leading link batches) - 1)%Z.
Proof.
  induction batches as [|b rest IH]; intros i found; simpl; [reflexivity|].
  destruct (dict_in link b); [|reflexivity].
  rewrite IH. simpl.
  destruct (leading link rest) as [|n]; simpl; lia.
Qed.

Lemma last_collision_found link batches :
  last_collision link batches 0 (-1) = (Z.of_nat (leading link batches) - 1)%Z.
Proof.
  rewrite last_collision_leading.
  destruct (leading link batches); simpl; lia.
Qed.

Lemma leading_le link batches : leading link batches <= length batches.
Proof.
  induction batches as [|b rest IH]; simpl; [lia|].
  destruct (dict_in link b); lia.
Qed.

Lemma leading_lookup link batches :
  leading link batches < length batches ->
  exists b, batches !! leading link batches = Some b /\ dict_in link b = false.
Proof.
  induction batches as [|b rest IH]; simpl; [lia|].
  destruct (dict_in link b) eqn:Hb; simpl.
  - intros H. apply IH. lia.
  - intros _. exists b. auto.
Qed.

Lemma first_fit_append m batches :
  leading (module_link m) batches = length batches ->
  first_fit m batches = batches ++ [dict_set (module_link m) m []].
Proof.
  induction batches as [|b rest IH]; simpl; [reflexivity|].
  destruct (dict_in (module_link m) b); [|discriminate].
  intros [= H]. rewrite IH by exact H. reflexivity.
Qed.

Lemma first_fit_insert m batches b :
  batches !! leading (module_link m) batches = Some b ->
  dict_in (module_link m) b = false ->
  first_fit m batches =
  <[leading (module_link m) batches := dict_set (module_link m) m b]> batches.
Proof.
  induction batches as [|b0 rest IH]; simpl; [discriminate|].
  destruct (dict_in (module_link m) b0) eqn:Hb0; simpl.
  - intros Hl Hb. rewrite IH by assumption. reflexivity.
  - intros [= ->] _. reflexivity.
Qed.

Lemma py_index_in_range n j :
  j < n -> py_index n (Z.of_nat j - 1 + 1) = Some j.
Proof.
  intros H. unfold py_index.
  replace (Z.of_nat j - 1 + 1)%Z with (Z.of_nat j) by lia.
  destruct (Z.leb_spec 0 (Z.of_nat j)); [|lia].
  destruct (Z.ltb_spec (Z.of_nat j) (Z.of_nat n)); [|lia].
  simpl. rewrite Nat2Z.id. reflexivity.
Qed.

(** The loop body never raises, and it is first fit. *)
Lemma place_first_fit m batches :
  place m batches = Returned (first_fit m batches).
Proof.
  unfold place. rewrite last_collision_found.
  pose proof (leading_le (module_link m) batches) as Hle.
  destruct (Z.eqb_spec (Z.of_nat (leading (module_link m) batches) - 1)
              (Z.of_nat (length batches) - 1)) as [Heq|Hne].
  - rewrite first_fit_append by lia. reflexivity.
  - assert (Hlt : leading (module_link m) batches < length batches) by lia.
    rewrite (py_index_in_range _ _ Hlt).
    destruct (leading_lookup _ _ Hlt) as (b & Hb & Hfree).
    rewrite Hb, (first_fit_insert m batches b Hb Hfree). reflexivity.
Qed.

Lemma writes_free_slot_always m batches : writes_free_slot m batches = true.
Proof.
  unfold writes_free_slot. rewrite last_collision_found.
  pose proof (leading_le (module_link m) batches) as Hle.
  destruct (Z.eqb_spec (Z.of_nat (leading (module_link m) batches) - 1)
              (Z.of_nat (length batches) - 1)) as [Heq|Hne]; [reflexivity|].
  assert (Hlt : leading (module_link m) batches < length batches) by lia.
  rewrite (py_index_in_range _ _ Hlt).
  destruct (leading_lookup _ _ Hlt) as (b & Hb & Hfree).
  rewrite Hb, Hfree. reflexivity.
Qed.

Lemma plan_from_first_fit ms :
  forall batches,
  plan_from ms batches =
  Returned (fold_left (fun bs m => first_fit m bs) ms batches).
Proof.
  induction ms as [|m ms IH]; intros batches; simpl; [reflexivity|].
  rewrite place_first_fit. apply IH.
Qed.

Lemma batch_wf_nil : batch_wf [].
Proof. split; constructor. Qed.

Lemma batch_wf_set m b :
  batch_wf b -> dict_in (module_link m) b = false ->
  batch_wf (dict_set (module_link m) m b).
Proof.
  intros [Hnd Hk] Hfree. rewrite (dict_set_fresh _ _ _ Hfree).
  apply dict_in_false in Hfree. split.
  - unfold dict_keys in *. rewrite map_app. simpl.
    apply NoDup_app. split; [exact Hnd|]. split.
    + intros x Hx Hx'. apply list_elem_of_singleton in Hx'. subst. contradiction.
    + apply NoDup_singleton.
  - apply Forall_app. split; [exact Hk|]. constructor; [reflexivity|constructor].
Qed.

Lemma first_fit_wf m batches :
  Forall batch_wf batches -> Forall batch_wf (first_fit m batches).
Proof.
  induction 1 as [|b rest Hb Hrest IH]; simpl.
  - constructor; [|constructor].
    apply (batch_wf_set m []); [apply batch_wf_nil | reflexivity].
  - destruct (dict_in (module_link m) b) eqn:Hin.
    + constructor; assumption.
    + constructor; [apply batch_wf_set|]; assumption.
Qed.

Lemma first_fit_tasks m batches :
  all_tasks (first_fit m batches) ≡ₚ m :: all_tasks batches.
Proof.
  unfold all_tasks.
  induction batches as [|b rest IH]; simpl; [reflexivity|].
  destruct (dict_in (module_link m) b) eqn:Hin; simpl.
  - rewrite IH. apply Permutation_sym, Permutation_middle.
  - rewrite (dict_set_fresh _ _ _ Hin). unfold dict_values.
    rewrite map_app. simpl. rewrite <- app_assoc. simpl.
    apply Permutation_sym, Permutation_middle.
Qed.

Lemma plan_wf ms :
  forall batches,
  Forall batch_wf batches ->
  Forall batch_wf (fold_left (fun bs m => first_fit m bs) ms batches).
Proof.
  induction ms as [|m ms IH]; intros batches H; simpl; [exact H|].
  apply IH, first_fit_wf, H.
Qed.

Lemma plan_tasks ms :
  forall batches,
  all_tasks (fold_left (fun bs m => first_fit m bs) ms batches)
  ≡ₚ all_tasks batches ++ ms.
Proof.
  induction ms as [|m ms IH]; intros batches; simpl.
  - rewrite app_nil_r. reflexivity.
  - rewrite IH, first_fit_tasks. apply Permutation_middle.
Qed.

(** In a well-formed batch the links of the references are its keys. *)
Lemma batch_wf_links b :
  batch_wf b -> NoDup (map module_link (dict_values b)).
Proof.
  intros [Hnd Hk]. unfold dict_values, dict_keys in *.
  replace (map module_link (map snd b)) with (map fst b); [exact Hnd|].
  induction Hk as [|kv b Hkv Hb IH]; simpl; [reflexivity|].
  inversion Hnd; subst. rewrite Hkv, IH by assumption. reflexivity.
Qed.

(** C1. Whatever references were placed before ([ms1]) and whatever come
    after ([ms2]), the planner returns; when it places [m] it writes to a key
    that is not in use (a new batch, or a batch that does not hold the link
    of [m]); and in the batches it returns no two references of a batch have
    the same link. *)
Theorem batches_never_collide (ms1 : list ModuleDownload) m ms2 :
  exists before batches,
    plan_batches ms1 = Returned before /\
    writes_free_slot m before = true /\
    plan_batches (ms1 ++ m :: ms2) = Returned batches /\
    Forall (fun b => NoDup (map module_link (dict_values b))) batches.
Proof.
  unfold plan_batches. rewrite !plan_from_first_fit.
  eexists _, _. split; [reflexivity|].
  split; [apply writes_free_slot_always|].
  split; [reflexivity|].
  eapply Forall_impl; [apply plan_wf; constructor|].
  intros b Hb. apply batch_wf_links, Hb.
Qed.

(** C2. The planner returns, and the references of its batches, taken
    together, are the input references, each as often as in the input: none
    is lost, none is doubled, none is in two batches. *)
Theorem batches_partition_input (ms : list ModuleDownload) :
  exists batches,
    plan_batches ms = Returned batches /\
    all_tasks batches ≡ₚ ms /\
    length (all_tasks batches) = length ms.
Proof.
  unfold plan_batches. rewrite plan_from_first_fit.
  eexists. split; [reflexivity|].
  pose proof (plan_tasks ms []) as H. simpl in H.
  split; [exact H|]. apply Permutation_length, H.
Qed.

(** ** The worker pool *)

Section PoolFacts.
Variable workers : nat.
Variable batches : list batch.
Hypothesis batches_wf : Forall batch_wf batches.

Lemma pool_inv_initial : pool_inv batches (Pool.initial batches).
Proof.
  constructor; simpl.
  - reflexivity.
  - intros t Ht. inversion Ht.
  - constructor.
  - intros j b m Hj. lia.
Qed.

(** A step that only moves tasks between the three lists of active tasks. *)
Lemma pool_inv_shuffle s s' :
  pool_inv batches s ->
  Pool.todo s' = Pool.todo s -> Pool.opened s' = Pool.opened s ->
  Pool.finished s' = Pool.finished s ->
  Pool.active s' ≡ₚ Pool.active s ->
  pool_inv batches s'.
Proof.
  intros [Ht Hc Hl Hd] Et Eo Ef Ea. constructor.
  - rewrite Et, Eo. exact Ht.
  - intros t Hin. rewrite Eo. apply Hc. rewrite <- Ea. exact Hin.
  - rewrite Ea. exact Hl.
  - intros j b m Hj Hb Hm. rewrite Eo in Hj. rewrite Ef, Ea. eauto.
Qed.

Lemma pool_inv_step s s' :
  pool_inv batches s -> Pool.step workers s s' -> pool_inv batches s'.
Proof.
  intros Hinv Hstep. destruct Hstep.
  - (* the loop enters batch [n] *)
    destruct Hinv as [Ht Hc Hl Hd]. simpl in *.
    assert (Hb : batches !! n = Some b).
    { rewrite <- (Nat.add_0_r n), <- lookup_drop, <- Ht. reflexivity. }
    constructor; simpl.
    + rewrite (drop_S _ _ _ Hb) in Ht. injection Ht as ->. reflexivity.
    + unfold Pool.active, Pool.tasks_of. simpl. rewrite app_nil_r.
      intros t Hin. apply list_elem_of_In, in_map_iff in Hin as (m & <- & _).
      reflexivity.
    + unfold Pool.active, Pool.tasks_of. simpl. rewrite app_nil_r, map_map.
      apply batch_wf_links.
      rewrite Forall_forall in batches_wf. apply batches_wf.
      eapply list_elem_of_lookup_2, Hb.
    + intros j b' m Hj Hb' Hm.
      destruct (decide (j = n)) as [->|Hne].
      * right. unfold Pool.active, Pool.tasks_of. simpl. rewrite app_nil_r.
        assert (b' = b) as ->
          by (pose proof (eq_trans (eq_sym Hb) Hb') as E; injection E; auto).
        apply list_elem_of_In, in_map, list_elem_of_In, Hm.
      * left. destruct (Hd j b' m ltac:(lia) Hb' Hm) as [H|H]; [exact H|].
        inversion H.
  - (* a task is submitted *)
    apply (pool_inv_shuffle _ _ Hinv); try reflexivity.
    unfold Pool.active. simpl. solve_Permutation.
  - (* a worker takes a task *)
    apply (pool_inv_shuffle _ _ Hinv); try reflexivity.
    unfold Pool.active. simpl. solve_Permutation.
  - (* a task completes *)
    destruct Hinv as [Ht Hc Hl Hd]. unfold Pool.active in *. simpl in *.
    assert (Hperm : u ++ q ++ r1 ++ t :: r2 ≡ₚ t :: u ++ q ++ r1 ++ r2)
      by solve_Permutation.
    constructor; simpl.
    + exact Ht.
    + intros t' Hin. apply Hc. rewrite Hperm. right. exact Hin.
    + rewrite Hperm in Hl. simpl in Hl. inversion Hl. assumption.
    + intros j b m Hj Hb Hm.
      destruct (Hd j b m Hj Hb Hm) as [H|H].
      * left. apply elem_of_app. left. exact H.
      * rewrite Hperm in H. apply elem_of_cons in H as [->|H].
        -- left. apply elem_of_app. right. apply list_elem_of_here.
        -- right. exact H.
Qed.

Lemma pool_inv_reachable s :
  Pool.reachable workers batches s -> pool_inv batches s.
Proof.
  unfold Pool.reachable. intros H.
  apply rtc_ind_r with (x := Pool.initial batches) (P := pool_inv batches)
    in H; [exact H | apply pool_inv_initial |].
  intros y z _ Hstep Hy. eapply pool_inv_step; eassumption.
Qed.

End PoolFacts.

Lemma plan_batches_wf ms batches :
  plan_batches ms = Returned batches -> Forall batch_wf batches.
Proof.
  unfold plan_batches. rewrite plan_from_first_fit. intros [= <-].
  apply plan_wf. constructor.
Qed.

(** C3. In every state the pool can reach while it runs the batches of the
    planner, with any number of workers: the tasks in flight have pairwise
    distinct links; and while a task of some batch is entered and not
    completed, every task of every earlier batch has completed. *)
Theorem one_fetch_per_link_in_flight workers ms batches s :
  plan_batches ms = Returned batches ->
  Pool.reachable workers batches s ->
  NoDup (map Pool.link_of (Pool.running s)) /\
  forall t j b m,
    t ∈ Pool.active s -> j < fst t ->
    batches !! j = Some b -> m ∈ dict_values b ->
    (j, m) ∈ Pool.finished s.
Proof.
  intros Hplan Hreach.
  destruct (pool_inv_reachable workers batches (plan_batches_wf _ _ Hplan)
              s Hreach) as [Ht Hc Hl Hd].
  split.
  - unfold Pool.active in Hl. rewrite !map_app in Hl.
    apply NoDup_app in Hl as (_ & _ & Hl).
    apply NoDup_app in Hl as (_ & _ & Hl). exact Hl.
  - intros t j b m Hin Hj Hb Hm.
    pose proof (Hc t Hin) as Hcur.
    destruct (Hd j b m ltac:(lia) Hb Hm) as [H|H]; [exact H|].
    pose proof (Hc (j, m) H) as Hcur'. simpl in Hcur'. lia.
Qed.

Lemma first_batch_in_flight_reachable :
  Pool.reachable 2 two_batches first_batch_in_flight.
Proof.
  unfold Pool.reachable, Pool.initial, two_batches, first_batch_in_flight.
  eapply rtc_l; [apply Pool.step_enter|].
  eapply rtc_l; [apply Pool.step_submit|].
  eapply rtc_l; [apply Pool.step_submit|].
  eapply rtc_l; [apply (Pool.step_start 2 _ _ _ _ _ []); simpl; lia|].
  eapply rtc_l; [apply (Pool.step_start 2 _ _ _ _ _ [_]); simpl; lia|].
  apply rtc_refl.
Defined.

Lemma one_fetch_per_link_in_flight_witness :
  NoDup (map Pool.link_of (Pool.running first_batch_in_flight)) /\
  forall t j b m,
    t ∈ Pool.active first_batch_in_flight -> j < fst t ->
    two_batches !! j = Some b -> m ∈ dict_values b ->
    (j, m) ∈ Pool.finished first_batch_in_flight.
Proof.
  apply (one_fetch_per_link_in_flight 2 [ref_a; ref_b; ref_a1] two_batches
           first_batch_in_flight).
  - vm_compute. reflexivity.
  - exact first_batch_in_flight_reachable.
Defined.

(** ** Addresses *)

Lemma has_colon_app l v : has_colon (l +:+ String ":" v) = true.
Proof.
  induction l as [|c l IH]; simpl; [reflexivity|].
  rewrite IH. apply orb_true_r.
Qed.

(** A colon-free suffix after the last colon determines both parts. *)
Lemma colon_split l1 :
  forall l2 v1 v2,
  has_colon v1 = false -> has_colon v2 = false ->
  l1 +:+ String ":" v1 = l2 +:+ String ":" v2 ->
  l1 = l2 /\ v1 = v2.
Proof.
  induction l1 as [|c l1 IH]; intros [|c2 l2] v1 v2 H1 H2 E; simpl in E.
  - injection E as ->. auto.
  - injection E as <- ->. rewrite has_colon_app in H1. discriminate.
  - injection E as -> <-. rewrite has_colon_app in H2. discriminate.
  - injection E as <- E. destruct (IH l2 v1 v2 H1 H2 E) as [-> ->]. auto.
Qed.

Lemma address_unfold m :
  address m = py_str (module_link m) +:+ String ":" (py_str (version m)).
Proof. reflexivity. Qed.

(** C7, as the code has it. The address is the link and the version as
    stored, an unset version written [None], with a colon between them. For
    two references whose links are set and whose versions, so written, hold
    no colon, the addresses are equal exactly when the links are equal and
    the versions so written are equal. *)
Theorem address_identifies_link_and_stored_version m1 m2 :
  is_Some (module_link m1) -> is_Some (module_link m2) ->
  has_colon (py_str (version m1)) = false ->
  has_colon (py_str (version m2)) = false ->
  address m1 = py_str (module_link m1) +:+ ":" +:+ py_str (version m1) /\
  (address m1 = address m2 <->
   module_link m1 = module_link m2 /\
   py_str (version m1) = py_str (version m2)).
Proof.
  intros [l1 Hl1] [l2 Hl2] Hv1 Hv2. split; [reflexivity|].
  rewrite !address_unfold, Hl1, Hl2. simpl. split.
  - intros E. destruct (colon_split _ _ _ _ Hv1 Hv2 E) as [-> ->]. auto.
  - intros [[= ->] ->]. reflexivity.
Qed.

Lemma address_identifies_link_and_stored_version_witness :
  address ref_a = "git::a" +:+ ":" +:+ "None" /\
  (address ref_a = address ref_a1 <->
   module_link ref_a = module_link ref_a1 /\
   py_str (version ref_a) = py_str (version ref_a1)).
Proof.
  apply (address_identifies_link_and_stored_version ref_a ref_a1).
  - exists "git::a". reflexivity.
  - exists "git::a". reflexivity.
  - reflexivity.
  - reflexivity.
Defined.

(** A quoted version without a digit is stored as the empty string. *)
Lemma latest_version_line_version :
  Re.re_match_group Re.version_re "VERSION" latest_version_line = Some EmptyString.
Proof. vm_compute. reflexivity. Qed.

(** C7, as stated, fails. An unset version is written [None], not [latest];
    a reference without a version and one whose version is stored empty are
    fetched as the same link and version and have different addresses; and
    two references with different links can share an address. *)
Lemma address_is_not_the_fetch_identity :
  address ref_a = "git::a:None" /\
  ~ (address ref_a = address ref_a_blank <->
     module_link ref_a = module_link ref_a_blank /\
     load_version ref_a = load_version ref_a_blank) /\
  ~ (address {| source_dir := "/repo"; module_link := Some "git::a";
                version := Some "1:2" |} =
     address {| source_dir := "/repo"; module_link := Some "git::a:1";
                version := Some "2" |} <->
     Some "git::a" = Some "git::a:1" /\ "1:2" = "2").
Proof.
  split; [reflexivity|]. split.
  - intros [_ H]. specialize (H (conj eq_refl eq_refl)). discriminate H.
  - intros [H _]. destruct (H eq_refl) as [_ E]. discriminate E.
Qed.

(** * Further properties *)

(** ** Dictionaries, continued *)

Section OdictMoreFacts.
Context {K V : Type} `{EqDecision K}.
Implicit Types (d : odict K V) (k : K) (v : V).

Lemma dict_keys_set k v d :
  dict_keys (dict_set k v d) =
  if dict_in k d then dict_keys d else dict_keys d ++ [k].
Proof.
  induction d as [|[k' v'] d IH]; simpl; [reflexivity|].
  destruct (decide (k = k')) as [->|Hne]; simpl.
  - replace (dict_in k' ((k', v') :: d)) with true; [reflexivity|].
    symmetry. apply dict_in_true. left.
  - rewrite IH.
    destruct (dict_in k d) eqn:Hd.
    + replace (dict_in k ((k', v') :: d)) with true; [reflexivity|].
      symmetry. apply dict_in_true. right. apply dict_in_true, Hd.
    + replace (dict_in k ((k', v') :: d)) with false; [reflexivity|].
      symmetry. apply dict_in_false. unfold dict_keys. simpl.
      apply not_elem_of_cons. split; [exact Hne|].
      apply dict_in_false, Hd.
Qed.

Lemma dict_in_set_same k v d : dict_in k (dict_set k v d) = true.
Proof.
  apply dict_in_true. rewrite dict_keys_set.
  destruct (dict_in k d) eqn:Hd.
  - apply dict_in_true, Hd.
  - apply elem_of_app. right. left.
Qed.

Lemma dict_in_set_other k k' v d :
  k' <> k -> dict_in k' (dict_set k v d) = dict_in k' d.
Proof.
  intros Hne. unfold dict_in. apply bool_decide_ext.
  fold (dict_keys (dict_set k v d)). fold (dict_keys d).
  rewrite dict_keys_set. destruct (dict_in k d); [reflexivity|].
  rewrite elem_of_app, list_elem_of_singleton. tauto.
Qed.

Lemma dict_in_singleton k v : dict_in k [(k, v)] = true.
Proof. exact (dict_in_set_same k v []). Qed.

Lemma dict_in_singleton_other k k' v : k' <> k -> dict_in k' [(k, v)] = false.
Proof. intros Hne. exact (dict_in_set_other k k' v [] Hne). Qed.

Lemma dict_set_not_nil k v d : dict_set k v d <> [].
Proof. destruct d as [|[k' v'] d]; simpl; [|destruct (decide (k = k'))]; discriminate. Qed.

Lemma dict_set_entries k v d x :
  x ∈ dict_set k v d -> x = (k, v) \/ x ∈ d.
Proof.
  induction d as [|[k' v'] d IH]; simpl.
  - intros Hx. apply list_elem_of_singleton in Hx. auto.
  - destruct (decide (k = k')) as [->|Hne].
    + intros Hx. apply elem_of_cons in Hx as [->|Hx]; [auto|].
      right. right. exact Hx.
    + intros Hx. apply elem_of_cons in Hx as [->|Hx]; [right; left|].
      destruct (IH Hx) as [->|Hd]; [auto|]. right. right. exact Hd.
Qed.

Lemma dict_set_has k v d : (k, v) ∈ dict_set k v d.
Proof.
  induction d as [|[k' v'] d IH]; simpl; [left|].
  destruct (decide (k = k')); [left | right; exact IH].
Qed.

Lemma dict_set_keeps k v d k' v' :
  k' <> k -> (k', v') ∈ d -> (k', v') ∈ dict_set k v d.
Proof.
  intros Hne. induction d as [|[k0 v0] d IH]; simpl; intros Hx; [inversion Hx|].
  apply elem_of_cons in Hx as [[= <- <-]|Hx].
  - destruct (decide (k = k')); [congruence | left].
  - destruct (decide (k = k0)); right; [exact Hx | apply IH, Hx].
Qed.
End OdictMoreFacts.

(** ** The planner, continued *)

Lemma leading_holds link batches :
  forall j b, j < leading link batches -> batches !! j = Some b ->
  dict_in link b = true.
Proof.
  induction batches as [|b0 rest IH]; simpl; intros j b Hj Hb; [lia|].
  destruct (dict_in link b0) eqn:Hb0; [|lia].
  destruct j as [|j]; simpl in Hb.
  - injection Hb as <-. exact Hb0.
  - apply (IH j b); [lia | exact Hb].
Qed.

Lemma tight_tail link b rest : tight link (b :: rest) -> tight link rest.
Proof.
  unfold tight. simpl. destruct (dict_in link b); simpl; [auto|].
  intros H. inversion H as [|? ? _ Hrest]; subst. apply Forall_drop, Hrest.
Qed.

Lemma absent_leading link batches :
  Forall (fun b => dict_in link b = false) batches -> leading link batches = 0.
Proof. intros [|b rest Hb _]; simpl; [reflexivity | rewrite Hb; reflexivity]. Qed.

(** Placing [m] moves the count of leading batches of its own link by one. *)
Lemma first_fit_own_link m batches :
  tight (module_link m) batches ->
  leading (module_link m) (first_fit m batches)
    = S (leading (module_link m) batches) /\
  tight (module_link m) (first_fit m batches).
Proof.
  induction batches as [|b rest IH]; intros Ht.
  - unfold tight. simpl. rewrite dict_in_singleton. simpl.
    split; [reflexivity|constructor].
  - simpl. destruct (dict_in (module_link m) b) eqn:Hb.
    + destruct (IH (tight_tail _ _ _ Ht)) as [Hl Ht'].
      unfold tight in *. simpl. rewrite Hb, Hl. simpl. split; [reflexivity|].
      rewrite Hl in Ht'. exact Ht'.
    + unfold tight in *. simpl in *. rewrite Hb in Ht. simpl in Ht.
      inversion Ht as [|? ? _ Hrest]; subst.
      rewrite dict_in_set_same, (absent_leading _ _ Hrest). simpl.
      split; [reflexivity | exact Hrest].
Qed.

Lemma first_fit_absent link m batches :
  link <> module_link m ->
  Forall (fun b => dict_in link b = false) batches ->
  Forall (fun b => dict_in link b = false) (first_fit m batches).
Proof.
  intros Hne. induction 1 as [|b rest Hb Hrest IH]; simpl.
  - constructor; [|constructor]. apply dict_in_singleton_other, Hne.
  - destruct (dict_in (module_link m) b); constructor; auto.
    rewrite dict_in_set_other by exact Hne. exact Hb.
Qed.

(** Placing [m] leaves the leading batches of every other link alone. *)
Lemma first_fit_other_link link m batches :
  link <> module_link m ->
  leading link (first_fit m batches) = leading link batches /\
  (tight link batches -> tight link (first_fit m batches)).
Proof.
  intros Hne. induction batches as [|b rest [IHl IHt]]; simpl.
  - rewrite dict_in_singleton_other by exact Hne. split; [reflexivity|].
    intros _. unfold tight. simpl. rewrite dict_in_singleton_other by exact Hne.
    simpl. constructor; [|constructor].
    apply dict_in_singleton_other, Hne.
  - destruct (dict_in (module_link m) b) eqn:Hm; simpl.
    + destruct (dict_in link b) eqn:Hb.
      * rewrite IHl. split; [reflexivity|].
        unfold tight in *. simpl. rewrite Hb, IHl. simpl. rewrite IHl in IHt.
        exact IHt.
      * split; [reflexivity|]. unfold tight. simpl. rewrite Hb. simpl.
        intros H. inversion H as [|? ? Hb' Hrest]; subst.
        constructor; [exact Hb'|]. apply first_fit_absent; assumption.
    + rewrite dict_in_set_other by exact Hne.
      destruct (dict_in link b) eqn:Hb.
      * split; [reflexivity|]. unfold tight. simpl.
        rewrite dict_in_set_other, Hb by exact Hne. simpl. auto.
      * split; [reflexivity|]. unfold tight. simpl.
        rewrite dict_in_set_other, Hb by exact Hne. simpl.
        intros H. inversion H; subst. constructor; [|assumption].
        rewrite dict_in_set_other by exact Hne. exact Hb.
Qed.

Lemma first_fit_tight m batches :
  (forall link, tight link batches) ->
  forall link, tight link (first_fit m batches).
Proof.
  intros Ht link. destruct (decide (link = module_link m)) as [->|Hne].
  - apply first_fit_own_link, Ht.
  - apply first_fit_other_link; [exact Hne | apply Ht].
Qed.

Lemma first_fit_leading link m batches :
  (forall l, tight l batches) ->
  leading link (first_fit m batches) =
  leading link batches + (if bool_decide (module_link m = link) then 1 else 0).
Proof.
  intros Ht. case_bool_decide as Hl.
  - subst link. rewrite (proj1 (first_fit_own_link m batches (Ht _))). lia.
  - rewrite (proj1 (first_fit_other_link link m batches ltac:(congruence))). lia.
Qed.

Lemma first_fit_length m batches :
  length (first_fit m batches) =
  if bool_decide (leading (module_link m) batches = length batches)
  then S (length batches) else length batches.
Proof.
  case_bool_decide as Hl.
  - rewrite first_fit_append by exact Hl. rewrite length_app. simpl. lia.
  - pose proof (leading_le (module_link m) batches) as Hle.
    destruct (leading_lookup (module_link m) batches ltac:(lia)) as (b & Hb & Hfree).
    rewrite (first_fit_insert m batches b Hb Hfree). apply length_insert.
Qed.

Lemma count_link_cons link m ms :
  count_link link (m :: ms) =
  (if bool_decide (module_link m = link) then 1 else 0) + count_link link ms.
Proof. unfold count_link. simpl. case_bool_decide; reflexivity. Qed.

(** What planning [ms] on top of tight batches keeps. *)
Lemma plan_tight ms :
  forall batches,
  (forall link, tight link batches) ->
  (batches = [] \/ exists link, leading link batches = length batches) ->
  let planned := fold_left (fun bs m => first_fit m bs) ms batches in
  (forall link, tight link planned) /\
  (forall link, leading link planned = leading link batches + count_link link ms) /\
  (planned = [] \/ exists link, leading link planned = length planned).
Proof.
  induction ms as [|m ms IH]; intros batches Ht Hfull; simpl.
  - split; [exact Ht|]. split; [|exact Hfull].
    intros link. unfold count_link. simpl. lia.
  - assert (Hfull' : first_fit m batches = [] \/
                     exists link, leading link (first_fit m batches)
                                  = length (first_fit m batches)).
    { right. rewrite first_fit_length. case_bool_decide as Hl.
      - exists (module_link m).
        rewrite (proj1 (first_fit_own_link m batches (Ht _))). lia.
      - destruct Hfull as [->|[link Hlink]]; [simpl in Hl; congruence|].
        exists link. rewrite first_fit_leading by exact Ht.
        case_bool_decide; [subst link; contradiction | lia]. }
    destruct (IH (first_fit m batches) (first_fit_tight m batches Ht) Hfull')
      as (Ht2 & Hl2 & Hf2).
    split; [exact Ht2|]. split; [|exact Hf2].
    intros link. rewrite Hl2, first_fit_leading, count_link_cons by exact Ht. lia.
Qed.

Lemma tight_nil link : tight link [].
Proof. unfold tight. simpl. constructor. Qed.

Lemma count_link_pos link ms :
  0 < count_link link ms -> exists m, m ∈ ms /\ module_link m = link.
Proof.
  unfold count_link. induction ms as [|m ms IH]; simpl; [lia|].
  case_bool_decide as Hl.
  - intros _. exists m. split; [left | exact Hl].
  - intros H. destruct (IH H) as (m' & Hin & Hm'). exists m'. split; [right|]; assumption.
Qed.

(** X1. The batch loop of lines 92 to 103 never raises and is first fit: the
    batches it returns are those obtained by putting each reference, in
    order, into the first batch that does not hold its link, and into a new
    last batch when every batch holds it. *)
Theorem planner_is_first_fit (ms : list ModuleDownload) :
  plan_batches ms = Returned (fold_left (fun bs m => first_fit m bs) ms []).
Proof. unfold plan_batches. apply plan_from_first_fit. Qed.

(** X2. The number of batches is the largest number of input references that
    share one link: no link occurs more often than there are batches, and
    unless the input is empty some input reference has a link that occurs
    exactly that often. *)
Theorem batch_count_is_largest_link_group (ms : list ModuleDownload) :
  exists batches,
    plan_batches ms = Returned batches /\
    (forall link, count_link link ms <= length batches) /\
    (ms = [] /\ batches = [] \/
     exists m, m ∈ ms /\ count_link (module_link m) ms = length batches).
Proof.
  rewrite planner_is_first_fit. eexists. split; [reflexivity|].
  destruct (plan_tight ms [] tight_nil (or_introl eq_refl)) as (Ht & Hl & Hf).
  simpl in Hl. split.
  - intros link. rewrite <- Hl. apply leading_le.
  - destruct ms as [|m0 ms]; [left; split; reflexivity|]. right.
    destruct Hf as [Hnil|[link Hlink]].
    + pose proof (Hl (module_link m0)) as H0. rewrite Hnil in H0. simpl in H0.
      rewrite count_link_cons, bool_decide_true in H0 by reflexivity. lia.
    + rewrite Hl in Hlink.
      pose proof (Hl (module_link m0)) as H0.
      rewrite count_link_cons, bool_decide_true in H0 by reflexivity.
      pose proof (leading_le (module_link m0)
                    (fold_left (fun bs m => first_fit m bs) (m0 :: ms) [])) as Hle.
      destruct (count_link_pos link (m0 :: ms) ltac:(lia)) as (m & Hin & <-).
      exists m. split; [exact Hin | exact Hlink].
Qed.

Lemma present_leading link batches :
  Forall (fun b => dict_in link b = true) batches ->
  leading link batches = length batches.
Proof.
  induction 1 as [|b rest Hb _ IH]; simpl; [reflexivity|].
  rewrite Hb, IH. reflexivity.
Qed.

Lemma serialized_from link ms :
  forall batches,
  Forall (fun b => dict_in link b = true) batches ->
  Forall (fun m => module_link m = link) ms ->
  fold_left (fun bs m => first_fit m bs) ms batches =
  batches ++ map singleton_batch ms.
Proof.
  induction ms as [|m ms IH]; intros batches Hb Hms; simpl.
  - rewrite app_nil_r. reflexivity.
  - inversion Hms as [|? ? Hm Hrest]; subst.
    rewrite first_fit_append by (apply present_leading, Hb).
    rewrite IH; [rewrite <- app_assoc; reflexivity | | exact Hrest].
    apply Forall_app. split; [exact Hb|].
    constructor; [apply dict_in_singleton | constructor].
Qed.

(** X3. References that all have the same link are fully serialized: the
    planner returns one batch per reference, each holding that reference
    alone, in the order of the input. *)
Theorem same_link_is_serialized link (ms : list ModuleDownload) :
  Forall (fun m => module_link m = link) ms ->
  plan_batches ms = Returned (map singleton_batch ms).
Proof.
  intros Hms. rewrite planner_is_first_fit. f_equal.
  apply (serialized_from link ms [] ltac:(constructor) Hms).
Qed.

Lemma same_link_is_serialized_witness :
  plan_batches [ref_a; ref_a1; ref_a2] =
  Returned [[(Some "git::a", ref_a)]; [(Some "git::a", ref_a1)];
            [(Some "git::a", ref_a2)]].
Proof.
  apply (same_link_is_serialized (Some "git::a") [ref_a; ref_a1; ref_a2]).
  repeat constructor.
Defined.

Lemma dict_in_snoc_false (link l : option string) (m : ModuleDownload) (b : batch) :
  dict_in link b = false -> link <> l -> dict_in link (b ++ [(l, m)]) = false.
Proof.
  intros Hb Hne. apply dict_in_false. unfold dict_keys. rewrite map_app. simpl.
  rewrite elem_of_app, list_elem_of_singleton.
  apply dict_in_false in Hb. unfold dict_keys in Hb. tauto.
Qed.

Lemma parallel_from ms :
  forall b : batch,
  Forall (fun m => dict_in (module_link m) b = false) ms ->
  NoDup (map module_link ms) ->
  fold_left (fun bs m => first_fit m bs) ms [b] = [b ++ batch_of ms].
Proof.
  induction ms as [|m ms IH]; intros b Hfree Hnd; simpl.
  - rewrite app_nil_r. reflexivity.
  - inversion Hfree as [|? ? Hm Hrest]; subst.
    simpl in Hnd. apply NoDup_cons in Hnd as [Hnotin Hnd].
    rewrite Hm, (dict_set_fresh _ _ _ Hm).
    rewrite IH; [rewrite <- app_assoc; reflexivity | | exact Hnd].
    rewrite Forall_forall in Hrest. apply Forall_forall. intros m' Hin.
    apply dict_in_snoc_false; [apply Hrest, Hin|].
    intros Heq. apply Hnotin. rewrite <- Heq.
    apply list_elem_of_In, in_map, list_elem_of_In, Hin.
Qed.

(** X4. References with pairwise distinct links all go to one batch, in the
    order of the input; an empty input gives no batch. *)
Theorem distinct_links_share_a_batch (ms : list ModuleDownload) :
  NoDup (map module_link ms) ->
  plan_batches ms =
  Returned (match ms with [] => [] | _ :: _ => [batch_of ms] end).
Proof.
  intros Hnd. rewrite planner_is_first_fit.
  destruct ms as [|m ms]; [reflexivity|]. f_equal.
  simpl in Hnd. apply NoDup_cons in Hnd as [Hnotin Hnd].
  refine (parallel_from ms [(module_link m, m)] _ Hnd).
  apply Forall_forall. intros m' Hin. apply dict_in_singleton_other.
  intros Heq. apply Hnotin. rewrite <- Heq.
  apply list_elem_of_In, in_map, list_elem_of_In, Hin.
Qed.

Lemma distinct_links_share_a_batch_witness :
  plan_batches [ref_a; ref_b; ref_c] =
  Returned [[(Some "git::a", ref_a); (Some "git::b", ref_b);
             (Some "git::c", ref_c)]].
Proof.
  apply (distinct_links_share_a_batch [ref_a; ref_b; ref_c]).
  compute_done.
Defined.

Lemma first_fit_nonempty m batches :
  Forall (fun b : batch => b <> []) batches ->
  Forall (fun b : batch => b <> []) (first_fit m batches).
Proof.
  induction 1 as [|b rest Hb Hrest IH]; simpl.
  - constructor; [discriminate | constructor].
  - destruct (dict_in (module_link m) b); constructor; auto.
    apply dict_set_not_nil.
Qed.

Lemma plan_nonempty ms :
  forall batches,
  Forall (fun b : batch => b <> []) batches ->
  Forall (fun b : batch => b <> [])
    (fold_left (fun bs m => first_fit m bs) ms batches).
Proof.
  induction ms as [|m ms IH]; intros batches H; simpl; [exact H|].
  apply IH, first_fit_nonempty, H.
Qed.

Lemma tight_absent link batches j b :
  tight link batches -> leading link batches <= j -> batches !! j = Some b ->
  dict_in link b = false.
Proof.
  unfold tight. intros Ht Hle Hb.
  rewrite Forall_lookup in Ht.
  apply (Ht (j - leading link batches)).
  rewrite lookup_drop. replace (leading link batches + (j - leading link batches)) with j by lia.
  exact Hb.
Qed.

(** X5. The batches are packed: none is empty, and every link held by a batch
    is also held by the batch before it, so that no reference could have been
    placed in an earlier batch. *)
Theorem batches_are_packed (ms : list ModuleDownload) :
  exists batches,
    plan_batches ms = Returned batches /\
    Forall (fun b : batch => b <> []) batches /\
    forall i b b' link,
      batches !! i = Some b -> batches !! S i = Some b' ->
      dict_in link b' = true -> dict_in link b = true.
Proof.
  rewrite planner_is_first_fit. eexists. split; [reflexivity|].
  split; [apply plan_nonempty; constructor|].
  destruct (plan_tight ms [] tight_nil (or_introl eq_refl)) as (Ht & _ & _).
  set (planned := fold_left (fun bs m => first_fit m bs) ms []) in *.
  intros i b b' link Hb Hb' Hin.
  apply (leading_holds link planned i b); [|exact Hb].
  destruct (Nat.lt_ge_cases (S i) (leading link planned)) as [Hlt|Hge]; [lia|].
  rewrite (tight_absent link planned (S i) b' (Ht link) Hge Hb') in Hin.
  discriminate.
Qed.

(** ** Deduplication *)

Lemma distinct_modules_dict ms : distinct_modules ms = dict_values (address_dict ms).
Proof. reflexivity. Qed.

Lemma address_dict_snoc ms m :
  address_dict (ms ++ [m]) = dict_set (address m) m (address_dict ms).
Proof. unfold address_dict. rewrite fold_left_app. reflexivity. Qed.

Lemma address_wf_set m d : address_wf d -> address_wf (dict_set (address m) m d).
Proof.
  intros [Hnd Hk]. split.
  - rewrite dict_keys_set. destruct (dict_in (address m) d) eqn:Hin; [exact Hnd|].
    apply NoDup_app. split; [exact Hnd|]. split; [|apply NoDup_singleton].
    intros x Hx Hx'. apply list_elem_of_singleton in Hx'. subst.
    apply dict_in_false in Hin. contradiction.
  - apply Forall_forall. intros x Hx.
    destruct (dict_set_entries _ _ _ _ Hx) as [->|Hd]; [reflexivity|].
    rewrite Forall_forall in Hk. apply Hk, Hd.
Qed.

Lemma address_dict_wf ms : address_wf (address_dict ms).
Proof.
  induction ms as [|m ms IH] using rev_ind.
  - split; constructor.
  - rewrite address_dict_snoc. apply address_wf_set, IH.
Qed.

Lemma address_wf_values d :
  address_wf d -> map address (dict_values d) = dict_keys d.
Proof.
  intros [_ Hk]. unfold dict_values, dict_keys.
  induction Hk as [|kv d Hkv _ IH]; simpl; [reflexivity|].
  rewrite IH, Hkv. reflexivity.
Qed.

Lemma distinct_modules_nodup ms : NoDup (map address (distinct_modules ms)).
Proof.
  rewrite distinct_modules_dict, address_wf_values by apply address_dict_wf.
  apply address_dict_wf.
Qed.

Lemma address_dict_entries ms x :
  x ∈ address_dict ms -> snd x ∈ ms /\ fst x = address (snd x).
Proof.
  revert x. induction ms as [|m ms IH] using rev_ind; intros x Hx.
  - inversion Hx.
  - rewrite address_dict_snoc in Hx.
    destruct (dict_set_entries _ _ _ _ Hx) as [->|Hd]; simpl.
    + split; [apply elem_of_app; right; left | reflexivity].
    + destruct (IH x Hd) as [Hin Hk]. split; [|exact Hk].
      apply elem_of_app. left. exact Hin.
Qed.

Lemma distinct_modules_subset ms m : m ∈ distinct_modules ms -> m ∈ ms.
Proof.
  rewrite distinct_modules_dict. unfold dict_values. intros Hm.
  apply list_elem_of_In, in_map_iff in Hm as (x & <- & Hx).
  apply address_dict_entries, list_elem_of_In, Hx.
Qed.

Lemma address_dict_covers ms m :
  m ∈ ms -> dict_in (address m) (address_dict ms) = true.
Proof.
  induction ms as [|m0 ms IH] using rev_ind; intros Hm; [inversion Hm|].
  rewrite address_dict_snoc.
  destruct (decide (address m = address m0)) as [->|Hne].
  - apply dict_in_set_same.
  - rewrite dict_in_set_other by exact Hne. apply IH.
    apply elem_of_app in Hm as [Hm|Hm]; [exact Hm|].
    apply list_elem_of_singleton in Hm. subst. contradiction.
Qed.

Lemma distinct_modules_covers ms m :
  m ∈ ms -> exists m', m' ∈ distinct_modules ms /\ address m' = address m.
Proof.
  intros Hm. apply address_dict_covers, dict_in_true in Hm.
  unfold dict_keys in Hm. apply list_elem_of_In, in_map_iff in Hm as (x & Hk & Hx).
  exists (snd x). split.
  - rewrite distinct_modules_dict. unfold dict_values.
    apply list_elem_of_In, in_map, Hx.
  - apply list_elem_of_In, address_dict_entries in Hx as [_ Hx]. congruence.
Qed.

(** X6. The deduplicated references have pairwise distinct addresses, each of
    them is one of the input references, and every input reference has its
    address among theirs: one reference per address met. *)
Theorem distinct_modules_one_per_address (ms : list ModuleDownload) :
  NoDup (map address (distinct_modules ms)) /\
  (forall m, m ∈ distinct_modules ms -> m ∈ ms) /\
  (forall m, m ∈ ms ->
     exists m', m' ∈ distinct_modules ms /\ address m' = address m).
Proof.
  split; [apply distinct_modules_nodup|].
  split; [apply distinct_modules_subset | apply distinct_modules_covers].
Qed.

Lemma store_keeps ms :
  forall (d : odict string ModuleDownload) k v,
  (k, v) ∈ d -> Forall (fun m => address m <> k) ms ->
  (k, v) ∈ fold_left (fun d m => dict_set (address m) m d) ms d.
Proof.
  induction ms as [|m ms IH]; intros d k v Hin Hms; simpl; [exact Hin|].
  inversion Hms as [|? ? Hm Hrest]; subst.
  apply IH; [|exact Hrest]. apply dict_set_keeps; [congruence | exact Hin].
Qed.

Lemma nodup_map_inj {A B} (f : A -> B) (l : list A) x y :
  NoDup (map f l) -> x ∈ l -> y ∈ l -> f x = f y -> x = y.
Proof.
  induction l as [|a l IH]; simpl; intros Hnd Hx Hy Hf; [inversion Hx|].
  apply NoDup_cons in Hnd as [Hnotin Hnd].
  apply elem_of_cons in Hx as [->|Hx], Hy as [->|Hy]; [reflexivity| | |auto].
  - exfalso. apply Hnotin. rewrite Hf. apply list_elem_of_In, in_map, list_elem_of_In, Hy.
  - exfalso. apply Hnotin. rewrite <- Hf. apply list_elem_of_In, in_map, list_elem_of_In, Hx.
Qed.

(** X7. Among input references with the same address the last one is kept:
    a reference after which no reference of the input has its address is
    among the deduplicated ones, and it is the only one with that address. *)
Theorem distinct_modules_keeps_the_last ms1 m ms2 :
  Forall (fun m' => address m' <> address m) ms2 ->
  m ∈ distinct_modules (ms1 ++ m :: ms2) /\
  forall m', m' ∈ distinct_modules (ms1 ++ m :: ms2) ->
             address m' = address m -> m' = m.
Proof.
  intros Hlast.
  assert (Hin : m ∈ distinct_modules (ms1 ++ m :: ms2)).
  { rewrite distinct_modules_dict. unfold address_dict, dict_values.
    rewrite fold_left_app. simpl.
    apply list_elem_of_In, in_map_iff. exists (address m, m).
    split; [reflexivity|]. apply list_elem_of_In.
    apply store_keeps; [apply dict_set_has | exact Hlast]. }
  split; [exact Hin|]. intros m' Hin' Heq.
  exact (nodup_map_inj address _ m' m (distinct_modules_nodup _) Hin' Hin Heq).
Qed.

Lemma distinct_modules_keeps_the_last_witness :
  ref_a_copy ∈ distinct_modules ([ref_a; ref_b] ++ ref_a_copy :: [ref_a1]) /\
  forall m', m' ∈ distinct_modules ([ref_a; ref_b] ++ ref_a_copy :: [ref_a1]) ->
             address m' = address ref_a_copy -> m' = ref_a_copy.
Proof.
  apply (distinct_modules_keeps_the_last [ref_a; ref_b] ref_a_copy [ref_a1]).
  repeat constructor. vm_compute. discriminate.
Defined.

Lemma store_fresh ms :
  forall d : odict string ModuleDownload,
  Forall (fun m => dict_in (address m) d = false) ms ->
  NoDup (map address ms) ->
  fold_left (fun d m => dict_set (address m) m d) ms d =
  d ++ map (fun m => (address m, m)) ms.
Proof.
  induction ms as [|m ms IH]; intros d Hfree Hnd; simpl.
  - rewrite app_nil_r. reflexivity.
  - inversion Hfree as [|? ? Hm Hrest]; subst.
    simpl in Hnd. apply NoDup_cons in Hnd as [Hnotin Hnd].
    rewrite (dict_set_fresh _ _ _ Hm).
    rewrite IH; [rewrite <- app_assoc; reflexivity | | exact Hnd].
    rewrite Forall_forall in Hrest. apply Forall_forall. intros m' Hin.
    apply dict_in_false. unfold dict_keys. rewrite map_app. simpl.
    rewrite elem_of_app, list_elem_of_singleton.
    specialize (Hrest m' Hin). apply dict_in_false in Hrest.
    unfold dict_keys in Hrest. intros [H|H]; [contradiction|].
    apply Hnotin. rewrite <- H.
    apply list_elem_of_In, in_map, list_elem_of_In, Hin.
Qed.

Lemma distinct_modules_fixed ms :
  NoDup (map address ms) -> distinct_modules ms = ms.
Proof.
  intros Hnd. rewrite distinct_modules_dict. unfold address_dict.
  rewrite (store_fresh ms []); [|apply Forall_forall; intros; reflexivity | exact Hnd].
  unfold dict_values. simpl. rewrite map_map. simpl. apply map_id.
Qed.

(** X8. References whose addresses are pairwise distinct are all kept, in
    their order: deduplication changes nothing. *)
Theorem distinct_modules_keeps_distinct (ms : list ModuleDownload) :
  NoDup (map address ms) -> distinct_modules ms = ms.
Proof. intros Hnd. exact (distinct_modules_fixed ms Hnd). Qed.

Lemma distinct_modules_keeps_distinct_witness :
  distinct_modules [ref_a; ref_b; ref_a1] = [ref_a; ref_b; ref_a1].
Proof.
  apply (distinct_modules_keeps_distinct [ref_a; ref_b; ref_a1]).
  compute_done.
Defined.

(** X9. Deduplicating twice is deduplicating once. *)
Theorem distinct_modules_idempotent (ms : list ModuleDownload) :
  distinct_modules (distinct_modules ms) = distinct_modules ms.
Proof. apply distinct_modules_fixed, distinct_modules_nodup. Qed.

(** ** [load_tf_modules] as a whole *)

Section WholeRun.
Variable fs : filesystem.
Variable ld : loader.
Variable should : option string -> result bool.

Lemma load_tf_modules_raises path w e l :
  find_modules fs path (log w) = (Raised e, l) ->
  load_tf_modules fs ld should path w =
  (Raised e, {| settings := enabled_for path; log := l; loads := loads w |}).
Proof.
  intros Hfind. unfold load_tf_modules, bind, modify, call_find_modules.
  simpl. rewrite Hfind. reflexivity.
Qed.

Lemma load_tf_modules_returns path w ms l :
  find_modules fs path (log w) = (Returned ms, l) ->
  load_tf_modules fs ld should path w =
  (Returned tt,
   {| settings := enabled_for path;
      log := l ++ concat (map (task_log ld should (enabled_for path))
                            (all_tasks (fold_left (fun bs m => first_fit m bs)
                                          (distinct_modules ms) [])));
      loads := loads w ++
               map load_call_of
                 (List.filter (eligible should)
                    (all_tasks (fold_left (fun bs m => first_fit m bs)
                                  (distinct_modules ms) []))) |}).
Proof.
  intros Hfind. unfold load_tf_modules, bind, modify, call_find_modules.
  simpl. rewrite Hfind. simpl.
  unfold plan_batches. rewrite plan_from_first_fit.
  rewrite run_batches_effect. reflexivity.
Qed.

End WholeRun.

Lemma filter_permutation {A} (f : A -> bool) (l l' : list A) :
  l ≡ₚ l' -> List.filter f l ≡ₚ List.filter f l'.
Proof.
  induction 1 as [|x l l' _ IH|x y l|l l' l'' _ IH1 _ IH2]; simpl.
  - reflexivity.
  - destruct (f x); [constructor|]; exact IH.
  - destruct (f x), (f y); try reflexivity. constructor.
  - etransitivity; eassumption.
Qed.

(** X10. When the scan raises, [load_tf_modules] raises the same exception
    with the registry already enabled for the path; the loader has not been
    called, and the log is the one the scan left. *)
Theorem scan_failure_stops_the_run fs ld should path w e l :
  find_modules fs path (log w) = (Raised e, l) ->
  load_tf_modules fs ld should path w =
  (Raised e, {| settings := enabled_for path; log := l; loads := loads w |}).
Proof. intros Hfind. exact (load_tf_modules_raises fs ld should path w e l Hfind). Qed.

Lemma scan_failure_stops_the_run_witness :
  load_tf_modules gone_fs loading_loader default_should_download "/repo" world0 =
  (Raised (no_such_file "/repo/gone.tf"),
   {| settings := enabled_for "/repo"; log := []; loads := [] |}).
Proof.
  apply (scan_failure_stops_the_run gone_fs loading_loader
           default_should_download "/repo" world0
           (no_such_file "/repo/gone.tf") []).
  vm_compute. reflexivity.
Defined.

(** X11. When the scan returns the references [ms], [load_tf_modules] returns
    normally, whatever the loader and the predicate do, with the registry
    enabled for the path; and the calls it has added to the loader are, up to
    their order, one call for each deduplicated reference that the predicate
    lets through, and no other. *)
Theorem each_distinct_reference_is_loaded_once fs ld should path w ms l :
  find_modules fs path (log w) = (Returned ms, l) ->
  exists calls,
    fst (load_tf_modules fs ld should path w) = Returned tt /\
    settings (snd (load_tf_modules fs ld should path w)) = enabled_for path /\
    loads (snd (load_tf_modules fs ld should path w)) = loads w ++ calls /\
    calls ≡ₚ map load_call_of
               (List.filter (eligible should) (distinct_modules ms)).
Proof.
  intros Hfind. rewrite (load_tf_modules_returns fs ld should path w ms l Hfind).
  simpl. eexists. repeat split.
  apply Permutation_map, filter_permutation.
  exact (plan_tasks (distinct_modules ms) []).
Qed.

Lemma each_distinct_reference_is_loaded_once_witness :
  exists calls,
    fst (load_tf_modules empty_source_fs loading_loader default_should_download
           "/repo" world0) = Returned tt /\
    settings (snd (load_tf_modules empty_source_fs loading_loader
                     default_should_download "/repo" world0))
      = enabled_for "/repo" /\
    loads (snd (load_tf_modules empty_source_fs loading_loader
                  default_should_download "/repo" world0)) = loads world0 ++ calls /\
    calls ≡ₚ map load_call_of
               (List.filter (eligible default_should_download)
                  (distinct_modules
                     [{| source_dir := "/repo"; module_link := Some EmptyString;
                         version := None |}])).
Proof.
  apply (each_distinct_reference_is_loaded_once empty_source_fs loading_loader
           default_should_download "/repo" world0
           [{| source_dir := "/repo"; module_link := Some EmptyString;
               version := None |}] []).
  vm_compute. reflexivity.
Defined.

Lemma eligible_default m :
  eligible default_should_download m = true ->
  exists p, module_link m = Some p /\ should_download p = true.
Proof.
  unfold eligible, default_should_download.
  destruct (module_link m) as [p|]; [|discriminate].
  destruct (should_download p) eqn:Hp; [|discriminate]. eauto.
Qed.

(** X12. With the default predicate no local path reaches the loader: every
    call [load_tf_modules] adds carries a link that is set and starts neither
    with [./], nor with [../], nor with [/]. *)
Theorem local_paths_are_never_loaded fs ld path w c :
  c ∈ loads (snd (load_tf_modules fs ld default_should_download path w)) ->
  c ∈ loads w \/
  exists p, call_link c = Some p /\
            startswith p "./" = false /\ startswith p "../" = false /\
            startswith p "/" = false.
Proof.
  destruct (find_modules fs path (log w)) as [[ms|e] l] eqn:Hfind.
  - rewrite (load_tf_modules_returns fs ld _ path w ms l Hfind). simpl.
    intros Hc. apply elem_of_app in Hc as [Hc|Hc]; [left; exact Hc|]. right.
    apply list_elem_of_In, in_map_iff in Hc as (m & <- & Hm).
    apply filter_In in Hm as [_ Hm].
    destruct (eligible_default m Hm) as (p & Hp & Hs).
    exists p. split; [exact Hp|].
    unfold should_download in Hs.
    apply negb_true_iff, orb_false_iff in Hs as [Hs H3].
    apply orb_false_iff in Hs as [H1 H2]. auto.
  - rewrite (load_tf_modules_raises fs ld _ path w e l Hfind). simpl. auto.
Qed.

Lemma local_paths_are_never_loaded_witness :
  {| call_dir := "/repo"; call_link := Some EmptyString;
     call_version := "latest" |} ∈ loads world0 \/
  exists p, Some EmptyString = Some p /\
            startswith p "./" = false /\ startswith p "../" = false /\
            startswith p "/" = false.
Proof.
  apply (local_paths_are_never_loaded empty_source_fs loading_loader "/repo"
           world0 {| call_dir := "/repo"; call_link := Some EmptyString;
                     call_version := "latest" |}).
  vm_compute. apply list_elem_of_here.
Defined.





(** X14. A load that answers [None], or a content that is not loaded, is
    reported and nothing more: the warning [Failed to download module] with
    the address of the reference is in the log, the run of the batches
    returns normally, and the loader is still called for every eligible
    reference. *)
Theorem unloaded_content_is_reported ld should batches w b m c :
  b ∈ batches -> m ∈ dict_values b ->
  should (module_link m) = Returned true ->
  ld (settings w) (load_call_of m) = Returned c ->
  c <> Some true ->
  (WARNING, failed_warning m) ∈ log (snd (run_batches ld should batches w)) /\
  fst (run_batches ld should batches w) = Returned tt /\
  loads (snd (run_batches ld should batches w)) =
    loads w ++
    map load_call_of (List.filter (eligible should) (all_tasks batches)).
Proof.
  intros Hb Hm Hs Hc Hne. rewrite run_batches_effect. simpl.
  split; [|split; reflexivity].
  apply elem_of_app. right.
  apply list_elem_of_In, in_concat.
  exists (task_log ld should (settings w) m). split.
  - apply in_map, in_concat. exists (dict_values b).
    split; [apply in_map|]; apply list_elem_of_In; assumption.
  - unfold task_log, eligible. rewrite Hs, Hc.
    destruct c as [[|]|]; [contradiction| |]; right; left; reflexivity.
Qed.

Lemma unloaded_content_is_reported_witness :
  (WARNING, "Failed to download module git::a:None")
    ∈ log (snd (run_batches idle_loader default_should_download two_batches
                  world0)) /\
  fst (run_batches idle_loader default_should_download two_batches world0)
    = Returned tt /\
  loads (snd (run_batches idle_loader default_should_download two_batches
                world0)) =
    loads world0 ++
    map load_call_of
      (List.filter (eligible default_should_download) (all_tasks two_batches)).
Proof.
  apply (unloaded_content_is_reported idle_loader default_should_download
           two_batches world0
           [(Some "git::a", ref_a); (Some "git::b", ref_b)] ref_a (Some false)).
  - apply list_elem_of_here.
  - apply list_elem_of_here.
  - reflexivity.
  - reflexivity.
  - discriminate.
Defined.

(** ** [find_modules] as a whole *)

(** The four things a line can do to a scanner that holds a reference
    whenever it is inside a block. *)
Lemma scan_line_cases root name line s :
  coherent s ->
  (in_module s = false /\ startswith line "module" = false /\
   scan_line root name line s = (Returned tt, s)) \/
  (in_module s = false /\ startswith line "module" = true /\
   scan_line root name line s = (Returned tt, entered root name s)) \/
  (exists md, in_module s = true /\ curr_md s = Some md /\
              startswith line "}" = true /\
              scan_line root name line s = (Returned tt, close_md md s)) \/
  (exists md, in_module s = true /\ curr_md s = Some md /\
              startswith line "}" = false /\
              scan_line root name line s = (Returned tt, inside line md s)).
Proof.
  intros Hc. unfold coherent in Hc.
  destruct (in_module s) eqn:Hin.
  - destruct (Hc eq_refl) as [md Hmd].
    destruct (startswith line "}") eqn:Hst.
    + right. right. left. exists md.
      rewrite (scan_line_close _ _ _ _ md Hin Hmd Hst). auto.
    + right. right. right. exists md.
      rewrite (scan_line_inside _ _ _ _ md Hin Hmd Hst). auto.
  - destruct (startswith line "module") eqn:Hst.
    + right. left. rewrite (scan_line_enter _ _ _ _ Hin Hst). auto.
    + left. rewrite (scan_line_outside _ _ _ _ Hin Hst). auto.
Qed.

Lemma coherent_reset s : coherent (reset s).
Proof. unfold coherent, reset. simpl. discriminate. Qed.

Section LoopFacts.
Context {S A : Type}.


(** Two loops whose bodies agree on the elements of the list agree. *)
Lemma for_each_ext_in (l : list A) (body body' : A -> M S unit) s :
  (forall x s, x ∈ l -> body x s = body' x s) ->
  for_each l body s = for_each l body' s.
Proof.
  revert s. induction l as [|x l IH]; intros s Hb; simpl; [reflexivity|].
  unfold bind. rewrite (Hb x s) by left.
  destruct (body' x s) as [[[]|e] s1]; [|reflexivity].
  apply IH. intros y t Hy. apply Hb. right. exact Hy.
Qed.

Lemma preserves_for_each_in (P : S -> Prop) (l : list A) (body : A -> M S unit) :
  (forall x, x ∈ l -> preserves P (body x)) -> preserves P (for_each l body).
Proof.
  induction l as [|x l IH]; intros Hb; simpl.
  - apply preserves_ret.
  - apply preserves_bind; [apply Hb; left|].
    intros _. apply IH. intros y Hy. apply Hb. right. exact Hy.
Qed.
End LoopFacts.




Lemma scan_file_same_open fs fs' path root name s :
  (endswith name ".tf" = true ->
   open_ fs (os_path_join path [root; name]) =
   open_ fs' (os_path_join path [root; name])) ->
  scan_file fs path root name s = scan_file fs' path root name s.
Proof.
  intros H. unfold scan_file.
  destruct (endswith name ".tf"); simpl; [|reflexivity].
  rewrite (H eq_refl). reflexivity.
Qed.

(** X16. [find_modules] looks at nothing but the [.tf] files that the walk
    lists: two file systems with the same walk of [path] whose [open] agrees
    on those files give the same outcome, the same references and the same
    log, whatever their other files are. *)
Theorem find_modules_reads_only_tf_files fs fs' path l :
  walk fs path = walk fs' path ->
  (forall root name,
     walked fs path root name ->
     open_ fs (os_path_join path [root; name]) =
     open_ fs' (os_path_join path [root; name])) ->
  find_modules fs path l = find_modules fs' path l.
Proof.
  intros Hwalk Hopen. unfold find_modules, find_modules_body.
  unfold bind at 1 3. unfold modify at 1 2. simpl.
  unfold bind. rewrite <- Hwalk.
  rewrite (for_each_ext_in (walk fs path)
             (fun entry => for_each (snd entry)
                             (scan_file fs path (fst (fst entry))))
             (fun entry => for_each (snd entry)
                             (scan_file fs' path (fst (fst entry))))).
  - reflexivity.
  - intros [[root dirs] files] s Hentry. simpl.
    apply for_each_ext_in. intros name t Hname.
    apply scan_file_same_open. intros Htf. apply Hopen.
    exists dirs, files. auto.
Qed.

Lemma find_modules_reads_only_tf_files_witness :
  find_modules mixed_fs "/repo" [] =
  find_modules
    (with_file mixed_fs "/repo/notes.txt"
       {| lines := [opening_line; source_x_line; closing_line]; ending := EOF |})
    "/repo" [].
Proof.
  apply (find_modules_reads_only_tf_files mixed_fs
           (with_file mixed_fs "/repo/notes.txt"
              {| lines := [opening_line; source_x_line; closing_line];
                 ending := EOF |}) "/repo" []).
  - reflexivity.
  - intros root name (dirs & files & Hentry & Hname & Htf).
    apply list_elem_of_singleton in Hentry. injection Hentry as -> -> ->.
    apply elem_of_cons in Hname as [->|Hname]; [discriminate Htf|].
    apply list_elem_of_singleton in Hname. subst name. reflexivity.
Defined.

(** *** What was found before does not matter *)









(** *** What every reference of the result satisfies *)

Section ScannerInvariant.
Variable Q : ModuleDownload -> Prop.
Hypothesis Q_update : forall line md, Q md -> Q (update_md line md).

Lemma scan_line_inv root name line :
  Q (new_ModuleDownload (os_path_dirname (os_path_join root [name]))) ->
  preserves (scanner_inv Q) (scan_line root name line).
Proof.
  intros Hnew s (Hc & Hm & Hcur).
  destruct (scan_line_cases root name line s Hc)
    as [(Hin & Hst & E)|[(Hin & Hst & E)|[(md & Hin & Hmd & Hst & E)
       |(md & Hin & Hmd & Hst & E)]]]; rewrite E; simpl.
  - repeat split; assumption.
  - split; [intros _; simpl; eauto|]. split; [exact Hm|].
    simpl. intros md [= <-]. exact Hnew.
  - unfold close_md. destruct (module_link md); (split; [discriminate|]);
      simpl; (split; [|discriminate]); [|exact Hm].
    apply Forall_app. split; [exact Hm|]. constructor; [auto|constructor].
  - split; [intros _; simpl; eauto|]. split; [exact Hm|].
    simpl. intros md' [= <-]. apply Q_update, Hcur, Hmd.
Qed.

Lemma scan_file_inv fs path root name :
  (endswith name ".tf" = true ->
   Q (new_ModuleDownload (os_path_dirname (os_path_join root [name])))) ->
  preserves (fun s => Forall Q (modules_found s)) (scan_file fs path root name).
Proof.
  intros Hnew s Hm. unfold scan_file.
  destruct (endswith name ".tf") eqn:Hn; simpl; [|exact Hm].
  destruct (open_ fs (os_path_join path [root; name])) as [[ls en]|e]; [|exact Hm].
  unfold try_except, for_line_in, bind, modify. simpl.
  change (set_curr_md None (set_in_module false s)) with (reset s).
  pose proof (preserves_for_each (scanner_inv Q) ls (scan_line root name)
                (fun line => scan_line_inv root name line (Hnew eq_refl))
                (reset s)) as Hp.
  destruct (for_each ls (scan_line root name) (reset s)) as [[[]|e] s1];
    simpl in Hp.
  - destruct Hp as (_ & Hm1 & _).
    { split; [apply coherent_reset|]. split; [exact Hm | discriminate]. }
    destruct en as [|e]; simpl; [exact Hm1|].
    unfold raise. destruct (scan_handles e); simpl; exact Hm1.
  - destruct Hp as (_ & Hm1 & _).
    { split; [apply coherent_reset|]. split; [exact Hm | discriminate]. }
    destruct (scan_handles e); simpl; exact Hm1.
Qed.

Lemma find_modules_inv fs path l ms l' :
  (forall root name,
     walked fs path root name ->
     Q (new_ModuleDownload (os_path_dirname (os_path_join root [name])))) ->
  find_modules fs path l = (Returned ms, l') ->
  Forall Q ms.
Proof.
  intros Hnew. unfold find_modules, find_modules_body, bind, modify, gets. simpl.
  pose proof (preserves_for_each_in (fun s => Forall Q (modules_found s))
    (walk fs path)
    (fun entry => for_each (snd entry) (scan_file fs path (fst (fst entry)))))
    as Hp.
  specialize (Hp ltac:(intros [[root dirs] files] Hentry;
                        apply preserves_for_each_in; intros name Hname;
                        apply scan_file_inv; intros Htf; apply Hnew;
                        exists dirs, files; auto)
                 (set_modules_found []
                    {| modules_found := []; in_module := false;
                       curr_md := None; scan_log := l |})
                 ltac:(constructor)).
  destruct (for_each (walk fs path) _ _) as [[[]|e] s1]; simpl in *.
  - intros [= <- _]. exact Hp.
  - discriminate.
Qed.
End ScannerInvariant.

(** X18. The directory of every reference [find_modules] returns is the
    directory part of the name of a [.tf] file that the walk lists, joined
    to the directory the walk gives for it. *)
Theorem source_dir_is_a_walked_directory fs path l ms l' :
  find_modules fs path l = (Returned ms, l') ->
  Forall (fun m => exists root name,
            walked fs path root name /\
            source_dir m = os_path_dirname (os_path_join root [name])) ms.
Proof.
  apply find_modules_inv.
  - intros line md (root & name & Hw & Hd). exists root, name.
    split; [exact Hw|]. rewrite update_md_source_dir. exact Hd.
  - intros root name Hw. exists root, name. split; [exact Hw | reflexivity].
Qed.

Lemma source_dir_is_a_walked_directory_witness :
  Forall (fun m => exists root name,
            walked gone_fs "/repo" root name /\
            source_dir m = os_path_dirname (os_path_join root [name]))
    (fst (tree_report (with_file gone_fs "/repo/gone.tf"
                         {| lines := [opening_line; source_x_line; closing_line];
                            ending := EOF |}) "/repo")).
Proof.
  apply (source_dir_is_a_walked_directory
           (with_file gone_fs "/repo/gone.tf"
              {| lines := [opening_line; source_x_line; closing_line];
                 ending := EOF |}) "/repo" [] _ []).
  vm_compute. reflexivity.
Defined.

Lemma update_md_no_source line md :
  Re.re_match_group Re.source_re "LINK" line = None ->
  module_link (update_md line md) = module_link md.
Proof.
  unfold update_md. intros ->.
  destruct (Re.re_match_group Re.version_re "VERSION" line); reflexivity.
Qed.

Lemma fold_update_no_source body :
  forall md,
  Forall (fun l => Re.re_match_group Re.source_re "LINK" l = None) body ->
  module_link (fold_left (fun md l => update_md l md) body md) = module_link md.
Proof.
  induction body as [|l body IH]; intros md H; simpl; [reflexivity|].
  inversion H; subst. rewrite IH by assumption. apply update_md_no_source.
  assumption.
Qed.

(** X19. In a block the last source declaration wins: when a line of the body
    declares the source [x] and no later line of the body declares a source,
    the block yields one reference, with link [x], and nothing is logged. *)
Theorem last_source_declaration_wins
    root name opener before line after closer s x :
  in_module s = false ->
  startswith opener "module" = true ->
  Forall (fun l => startswith l "}" = false) (before ++ line :: after) ->
  Re.re_match_group Re.source_re "LINK" line = Some x ->
  Forall (fun l => Re.re_match_group Re.source_re "LINK" l = None) after ->
  startswith closer "}" = true ->
  exists m,
    for_each (opener :: (before ++ line :: after) ++ [closer])
      (scan_line root name) s =
    (Returned tt,
     {| modules_found := modules_found s ++ [m]; in_module := false;
        curr_md := None; scan_log := scan_log s |}) /\
    module_link m = Some x.
Proof.
  intros Hin Hop Hbody Hline Hafter Hcl.
  rewrite (scan_block root name opener _ closer s Hin Hop Hbody Hcl).
  rewrite fold_left_app. simpl.
  set (md := fold_left (fun md l => update_md l md) before _).
  assert (Hlink : module_link
                    (fold_left (fun md l => update_md l md) after
                       (update_md line md)) = Some x).
  { rewrite fold_update_no_source by exact Hafter.
    unfold update_md. rewrite Hline. reflexivity. }
  eexists. split; [|exact Hlink].
  unfold close_md. rewrite Hlink. reflexivity.
Qed.

Lemma last_source_declaration_wins_witness :
  exists m,
    for_each (opening_line ::
              ([empty_source_line] ++ source_x_line :: [version_line])
              ++ [closing_line])
      (scan_line "/repo" "main.tf") blank =
    (Returned tt,
     {| modules_found := modules_found blank ++ [m]; in_module := false;
        curr_md := None; scan_log := scan_log blank |}) /\
    module_link m = Some "x".
Proof.
  apply (last_source_declaration_wins "/repo" "main.tf" opening_line
           [empty_source_line] source_x_line [version_line] closing_line
           blank "x").
  - reflexivity.
  - reflexivity.
  - repeat constructor.
  - vm_compute. reflexivity.
  - repeat constructor.
  - reflexivity.
Defined.

(** ** Paths *)

Lemma str_app_cons x (a b : string) : String x a +:+ b = String x (a +:+ b).
Proof. reflexivity. Qed.

Lemma str_app_nil_l (b : string) : EmptyString +:+ b = b.
Proof. reflexivity. Qed.

Lemma str_app_assoc (a b c : string) : (a +:+ b) +:+ c = a +:+ (b +:+ c).
Proof.
  induction a as [|x a IH]; rewrite ?str_app_nil_l, ?str_app_cons;
    [reflexivity | rewrite IH; reflexivity].
Qed.

Lemma str_app_nil_r (a : string) : a +:+ EmptyString = a.
Proof.
  induction a as [|x a IH]; rewrite ?str_app_nil_l, ?str_app_cons;
    [reflexivity | rewrite IH; reflexivity].
Qed.

Lemma rev_app_acc s : forall acc, String.rev_app s acc = String.rev s +:+ acc.
Proof.
  unfold String.rev. induction s as [|c s IH]; intros acc; simpl; [reflexivity|].
  rewrite (IH (String c acc)), (IH (String c EmptyString)), str_app_assoc.
  reflexivity.
Qed.

Lemma rev_cons c s : String.rev (String c s) = String.rev s +:+ String c EmptyString.
Proof. unfold String.rev at 1. simpl. apply rev_app_acc. Qed.

Lemma slash_prefix_cons c s :
  String.prefix "/" (String c s) = Ascii.eqb c "/".
Proof.
  change (String.prefix "/" (String c s))
    with (if ascii_dec "/" c then String.prefix EmptyString s else false).
  destruct (ascii_dec "/" c) as [<-|Hne].
  - destruct s; reflexivity.
  - symmetry. apply Ascii.eqb_neq. congruence.
Qed.

Lemma slash_prefix_app s t :
  s <> EmptyString -> String.prefix "/" (s +:+ t) = String.prefix "/" s.
Proof.
  destruct s as [|c s]; [contradiction|]. intros _.
  rewrite str_app_cons, !slash_prefix_cons. reflexivity.
Qed.

Lemma rev_not_nil c s : String.rev (String c s) <> EmptyString.
Proof. rewrite rev_cons. destruct (String.rev s); discriminate. Qed.

(** [s.endswith('/')], read from the front. *)
Lemma endswith_slash s : endswith s "/" = ends_slash s.
Proof.
  unfold endswith. change (String.rev "/") with "/".
  induction s as [|c s IH]; [reflexivity|].
  rewrite rev_cons. destruct s as [|d s].
  - change (String.rev EmptyString +:+ String c EmptyString)
      with (String c EmptyString).
    apply slash_prefix_cons.
  - rewrite slash_prefix_app by apply rev_not_nil. exact IH.
Qed.

Lemma ends_slash_app a b :
  ends_slash (a +:+ b) =
  match b with EmptyString => ends_slash a | String _ _ => ends_slash b end.
Proof.
  induction a as [|c a IH]; simpl.
  - destruct b; reflexivity.
  - rewrite IH. destruct a as [|d a]; simpl; destruct b; reflexivity.
Qed.

Lemma no_slash_not_absolute n : has_slash n = false -> startswith n "/" = false.
Proof.
  destruct n as [|c n]; [reflexivity|]. intros H. simpl in H.
  apply orb_false_iff in H as [Hc _].
  unfold startswith. rewrite slash_prefix_cons. exact Hc.
Qed.

Lemma upto_last_slash_none n : has_slash n = false -> upto_last_slash n = EmptyString.
Proof.
  induction n as [|c n IH]; simpl; [reflexivity|]. intros H.
  apply orb_false_iff in H as [Hc Hn]. rewrite (IH Hn), Hc. reflexivity.
Qed.

Lemma upto_last_slash_dir a n :
  has_slash n = false ->
  upto_last_slash (a +:+ String "/" n) = a +:+ String "/" EmptyString.
Proof.
  intros Hn. induction a as [|c a IH]; simpl.
  - rewrite (upto_last_slash_none n Hn). reflexivity.
  - rewrite IH. destruct a; reflexivity.
Qed.

Lemma rstrip_slash_dir r :
  r <> EmptyString -> ends_slash r = false ->
  rstrip_slash (r +:+ String "/" EmptyString) = r /\
  all_slashes (r +:+ String "/" EmptyString) = false.
Proof.
  induction r as [|c r IH]; [contradiction|]. intros _ He.
  destruct r as [|d r].
  - simpl in *. rewrite He. auto.
  - destruct (IH ltac:(discriminate) He) as [Hr Ha].
    change (String c (String d r) +:+ String "/" EmptyString)
      with (String c (String d r +:+ String "/" EmptyString)).
    cbn [rstrip_slash all_slashes]. rewrite Hr, Ha, andb_false_r. auto.
Qed.

Lemma join2_relative a b :
  startswith b "/" = false ->
  join2 a b =
  if String.eqb a EmptyString || ends_slash a then a +:+ b
  else a +:+ String "/" b.
Proof. intros Hb. unfold join2. rewrite Hb, endswith_slash. reflexivity. Qed.

(** X20. For a file name without a slash and a directory that does not end
    with one, the expression of line 40 gives back the directory: the
    directory recorded in a reference is the one the walk gave for its
    file. *)
Theorem source_dir_is_the_walk_root root name :
  has_slash name = false -> endswith root "/" = false ->
  os_path_dirname (os_path_join root [name]) = root.
Proof.
  intros Hn Hr. rewrite endswith_slash in Hr.
  unfold os_path_join. cbn [fold_left].
  rewrite (join2_relative root name (no_slash_not_absolute name Hn)), Hr.
  rewrite orb_false_r. unfold os_path_dirname.
  destruct root as [|c r].
  - change (String.eqb EmptyString EmptyString) with true. cbv iota.
    rewrite str_app_nil_l, (upto_last_slash_none name Hn). reflexivity.
  - change (String.eqb (String c r) EmptyString) with false. cbv iota.
    rewrite (upto_last_slash_dir (String c r) name Hn).
    destruct (rstrip_slash_dir (String c r) ltac:(discriminate) Hr) as [Hs Ha].
    rewrite Ha, Hs.
    change (String.eqb (String c r +:+ String "/" EmptyString) EmptyString)
      with false.
    reflexivity.
Qed.

Lemma source_dir_is_the_walk_root_witness :
  os_path_dirname (os_path_join "/repo/net" ["main.tf"]) = "/repo/net".
Proof.
  apply (source_dir_is_the_walk_root "/repo/net" "main.tf"); reflexivity.
Defined.

(** X21. The path handed to [open] on line 32 joins the top directory to a
    directory that the walk already gave relative to it: for a directory and
    a file name that do not start with a slash, and a top directory that is
    not empty and does not end with one, the file opened is the top
    directory, a slash, and the joined directory and name. *)
Theorem relative_root_is_prefixed_again path root name :
  startswith root "/" = false -> startswith name "/" = false ->
  path <> EmptyString -> endswith path "/" = false ->
  os_path_join path [root; name] = path +:+ "/" +:+ os_path_join root [name].
Proof.
  intros Hroot Hname Hpath Hend. rewrite endswith_slash in Hend.
  unfold os_path_join. cbn [fold_left].
  rewrite (join2_relative path root Hroot), Hend, orb_false_r.
  destruct path as [|p0 p]; [contradiction|].
  change (String.eqb (String p0 p) EmptyString) with false. cbv iota.
  rewrite !(join2_relative _ name Hname), ends_slash_app.
  change (String.eqb (String p0 p +:+ String "/" root) EmptyString) with false.
  rewrite orb_false_l.
  destruct root as [|c r].
  - change (ends_slash (String "/" EmptyString)) with true.
    change (String.eqb EmptyString EmptyString) with true. cbv iota.
    rewrite orb_true_l, str_app_assoc. reflexivity.
  - change (ends_slash (String "/" (String c r))) with (ends_slash (String c r)).
    change (String.eqb (String c r) EmptyString) with false.
    rewrite orb_false_l.
    destruct (ends_slash (String c r)); rewrite str_app_assoc; reflexivity.
Qed.

Lemma relative_root_is_prefixed_again_witness :
  os_path_join "proj" ["proj/net"; "main.tf"] =
  "proj" +:+ "/" +:+ os_path_join "proj/net" ["main.tf"].
Proof.
  apply (relative_root_is_prefixed_again "proj" "proj/net" "main.tf");
    [reflexivity | reflexivity | discriminate | reflexivity].
Defined.

(** ** The patterns *)

Lemma matches_star_nil k r prev :
  Re.matches (Re.Star k :: r) prev EmptyString = Re.matches r prev EmptyString.
Proof. reflexivity. Qed.

Lemma matches_star_cons k r prev c s :
  Re.matches (Re.Star k :: r) prev (String c s) =
  if Re.in_cls k c then
    match Re.matches (Re.Star k :: r) (Some c) s with
    | Some g => Some g
    | None => Re.matches r prev (String c s)
    end
  else Re.matches r prev (String c s).
Proof. reflexivity. Qed.

Lemma group_unfold name k r :
  forall s acc prev,
  (fix star (acc : string) (prev : option ascii) (s : string) {struct s} :=
     match s with
     | String c s' =>
         if Re.in_cls k c then
           match star (acc +:+ String c EmptyString) (Some c) s' with
           | Some g => Some g
           | None =>
               match Re.matches r prev s with
               | Some g => Some ((name, acc) :: g)
               | None => None
               end
           end
         else
           match Re.matches r prev s with
           | Some g => Some ((name, acc) :: g)
           | None => None
           end
     | EmptyString =>
         match Re.matches r prev s with
         | Some g => Some ((name, acc) :: g)
         | None => None
         end
     end) acc prev s = group_from name k r acc prev s.
Proof.
  induction s as [|c s IH]; intros acc prev; [reflexivity|].
  cbn [group_from]. rewrite <- IH. reflexivity.
Qed.

Lemma matches_group name k r prev s :
  Re.matches (Re.Group name k :: r) prev s =
  group_from name k r EmptyString prev s.
Proof. exact (group_unfold name k r s EmptyString prev). Qed.

(** An atom that is not a group hands on the groups of the rest. *)
Lemma matches_lit_inv c r prev s g :
  Re.matches (Re.Lit c :: r) prev s = Some g ->
  exists prev' s', Re.matches r prev' s' = Some g.
Proof.
  destruct s as [|c' s]; [discriminate|].
  change (Re.matches (Re.Lit c :: r) prev (String c' s))
    with (if Ascii.eqb c c' then Re.matches r (Some c') s else None).
  destruct (Ascii.eqb c c'); [eauto | discriminate].
Qed.

Lemma matches_boundary_inv r prev s g :
  Re.matches (Re.WordBoundary :: r) prev s = Some g ->
  exists prev' s', Re.matches r prev' s' = Some g.
Proof.
  change (Re.matches (Re.WordBoundary :: r) prev s)
    with (if xorb (Re.word_opt prev) (Re.word_opt (Re.next_char s))
          then Re.matches r prev s else None).
  destruct (xorb _ _); [eauto | discriminate].
Qed.

Lemma matches_star_inv k r s :
  forall prev g,
  Re.matches (Re.Star k :: r) prev s = Some g ->
  exists prev' s', Re.matches r prev' s' = Some g.
Proof.
  induction s as [|c s IH]; intros prev g.
  - rewrite matches_star_nil. eauto.
  - rewrite matches_star_cons.
    destruct (Re.in_cls k c); [|eauto].
    destruct (Re.matches (Re.Star k :: r) (Some c) s) as [g'|] eqn:Hdeep; [|eauto].
    intros [= <-]. eapply IH, Hdeep.
Qed.

(** A repetition succeeds wherever the rest of the pattern does. *)
Lemma matches_star_complete k r prev s :
  Re.matches r prev s <> None -> Re.matches (Re.Star k :: r) prev s <> None.
Proof.
  destruct s as [|c s]; [rewrite matches_star_nil; auto|].
  rewrite matches_star_cons. intros H.
  destruct (Re.in_cls k c); [|exact H].
  destruct (Re.matches (Re.Star k :: r) (Some c) s); [discriminate | exact H].
Qed.

Lemma matches_quote prev s g :
  Re.matches [Re.Lit Re.quote] prev s = Some g ->
  g = [] /\ exists rest, s = String Re.quote rest.
Proof.
  destruct s as [|c s]; [discriminate|].
  change (Re.matches [Re.Lit Re.quote] prev (String c s))
    with (if Ascii.eqb Re.quote c then Some (@nil (string * string)) else None).
  destruct (Ascii.eqb_spec Re.quote c) as [<-|]; [|discriminate].
  intros [= <-]. eauto.
Qed.

(** What a group before the closing quote takes: characters of one line, up
    to a quote. *)
Lemma group_quote_sound name s :
  forall acc prev g,
  group_from name Re.Dot [Re.Lit Re.quote] acc prev s = Some g ->
  exists w rest,
    g = [(name, acc +:+ w)] /\ s = w +:+ String Re.quote rest /\
    one_line w = true.
Proof.
  induction s as [|c s IH]; intros acc prev g; cbn [group_from].
  - destruct (Re.matches [Re.Lit Re.quote] prev EmptyString) eqn:Hq; [|discriminate].
    apply matches_quote in Hq as (_ & rest & Hrest). discriminate.
  - assert (Hhere :
      match Re.matches [Re.Lit Re.quote] prev (String c s) with
      | Some g0 => Some ((name, acc) :: g0)
      | None => None
      end = Some g ->
      exists w rest,
        g = [(name, acc +:+ w)] /\ String c s = w +:+ String Re.quote rest /\
        one_line w = true).
    { destruct (Re.matches [Re.Lit Re.quote] prev (String c s)) eqn:Hq;
        [|discriminate].
      apply matches_quote in Hq as (-> & rest & Hrest). intros [= <-].
      exists EmptyString, rest. rewrite str_app_nil_r. auto. }
    destruct (Re.in_cls Re.Dot c) eqn:Hc; [|exact Hhere].
    destruct (group_from name Re.Dot [Re.Lit Re.quote]
                (acc +:+ String c EmptyString) (Some c) s) as [g'|] eqn:Hdeep;
      [|exact Hhere].
    intros [= <-]. destruct (IH _ _ _ Hdeep) as (w & rest & -> & -> & Hw).
    exists (String c w), rest. rewrite str_app_assoc. cbn [one_line].
    rewrite Hc, Hw. auto.
Qed.

Lemma group_quote_complete name w :
  forall acc prev rest,
  one_line w = true ->
  group_from name Re.Dot [Re.Lit Re.quote] acc prev (w +:+ String Re.quote rest)
    <> None.
Proof.
  induction w as [|c w IH]; intros acc prev rest Hw.
  - rewrite str_app_nil_l. cbn [group_from].
    change (Re.in_cls Re.Dot Re.quote) with true. cbv iota.
    destruct (group_from name Re.Dot [Re.Lit Re.quote] _ _ rest); [discriminate|].
    change (Re.matches [Re.Lit Re.quote] prev (String Re.quote rest))
      with (Some (@nil (string * string))).
    discriminate.
  - cbn [one_line] in Hw. apply andb_true_iff in Hw as [Hc Hw].
    rewrite str_app_cons. cbn [group_from]. rewrite Hc.
    specialize (IH (acc +:+ String c EmptyString) (Some c) rest Hw).
    destruct (group_from name Re.Dot [Re.Lit Re.quote] _ _ _);
      [discriminate | contradiction].
Qed.

(** After the non-digits that open the quoted value, the group is empty or
    starts with a digit. *)
Lemma version_tail_digit_led s :
  forall prev g,
  Re.matches version_tail prev s = Some g ->
  exists v, g = [("VERSION", v)] /\ digit_led v.
Proof.
  unfold version_tail.
  assert (Hhere : forall prev s g,
    Re.matches [Re.Group "VERSION" Re.Dot; Re.Lit Re.quote] prev s = Some g ->
    exists w rest, g = [("VERSION", w)] /\ s = w +:+ String Re.quote rest /\
                   one_line w = true).
  { intros prev s0 g H. rewrite matches_group in H.
    destruct (group_quote_sound _ _ _ _ _ H) as (w & rest & Hg & Hs & Hw).
    rewrite str_app_nil_l in Hg. eauto. }
  induction s as [|c s IH]; intros prev g.
  - rewrite matches_star_nil. intros H.
    destruct (Hhere _ _ _ H) as (w & rest & _ & Hs & _).
    destruct w; discriminate.
  - rewrite matches_star_cons.
    destruct (Re.in_cls Re.NotDigit c) eqn:Hc.
    + destruct (Re.matches _ (Some c) s) as [g'|] eqn:Hdeep.
      * intros [= <-]. exact (IH _ _ Hdeep).
      * intros H. destruct (Hhere _ _ _ H) as (w & rest & -> & Hs & Hw).
        destruct w as [|c' w]; [exists EmptyString; split; [reflexivity|exact I]|].
        rewrite str_app_cons in Hs. injection Hs as <- ->.
        cbn [one_line] in Hw. apply andb_true_iff in Hw as [_ Hw].
        exfalso. revert Hdeep. apply matches_star_complete.
        rewrite matches_group. apply group_quote_complete, Hw.
    + intros H. destruct (Hhere _ _ _ H) as (w & rest & -> & Hs & Hw).
      exists w. split; [reflexivity|].
      destruct w as [|c' w]; [exact I|].
      rewrite str_app_cons in Hs. injection Hs as <- _.
      unfold digit_led. unfold Re.in_cls in Hc.
      apply negb_false_iff in Hc. exact Hc.
Qed.

(** Whatever the line, the version the pattern of line 57 captures is empty
    or starts with a digit. *)
Lemma version_re_digit_led line v :
  Re.re_match_group Re.version_re "VERSION" line = Some v -> digit_led v.
Proof.
  unfold Re.re_match_group.
  destruct (Re.matches Re.version_re None line) as [g|] eqn:Hm; [|discriminate].
  change Re.version_re
    with (Re.Star Re.Dot :: Re.WordBoundary ::
          Re.Lit "v" :: Re.Lit "e" :: Re.Lit "r" :: Re.Lit "s" :: Re.Lit "i" ::
          Re.Lit "o" :: Re.Lit "n" ::
          Re.Star Re.Space :: Re.Lit "=" :: Re.Star Re.Space ::
          Re.Lit Re.quote :: version_tail) in Hm.
  apply matches_star_inv in Hm as (p1 & s1 & Hm).
  apply matches_boundary_inv in Hm as (p2 & s2 & Hm).
  do 7 (apply matches_lit_inv in Hm as (? & ? & Hm)).
  apply matches_star_inv in Hm as (p3 & s3 & Hm).
  apply matches_lit_inv in Hm as (p4 & s4 & Hm).
  apply matches_star_inv in Hm as (p5 & s5 & Hm).
  apply matches_lit_inv in Hm as (p6 & s6 & Hm).
  apply version_tail_digit_led in Hm as (v' & -> & Hv).
  simpl. intros [= <-]. exact Hv.
Qed.

Lemma update_md_version_normal line md :
  version_normal md -> version_normal (update_md line md).
Proof.
  unfold update_md, version_normal. intros H.
  destruct (Re.re_match_group Re.source_re "LINK" line); [exact H|].
  destruct (Re.re_match_group Re.version_re "VERSION" line) as [v|] eqn:Hv;
    [|exact H].
  simpl. exact (version_re_digit_led line v Hv).
Qed.

(** X22. The version of every reference [find_modules] returns is
    normalized: it is unset, or the empty string, or a string that starts
    with a decimal digit; whatever non-digits open the quoted value of a
    version declaration, such as [v] or a constraint operator, are
    dropped. *)
Theorem versions_are_normalized fs path l ms l' :
  find_modules fs path l = (Returned ms, l') ->
  Forall (fun m => match version m with
                   | None => True
                   | Some v => v = EmptyString \/
                               exists c v', v = String c v' /\
                                            Re.is_digit c = true
                   end) ms.
Proof.
  intros Hfind.
  eapply Forall_impl;
    [exact (find_modules_inv version_normal update_md_version_normal
              fs path l ms l' (fun _ _ _ => I) Hfind)|].
  intros m. unfold version_normal, digit_led.
  destruct (version m) as [[|c v]|]; eauto.
Qed.

Lemma versions_are_normalized_witness :
  Forall (fun m => match version m with
                   | None => True
                   | Some v => v = EmptyString \/
                               exists c v', v = String c v' /\
                                            Re.is_digit c = true
                   end)
    [{| source_dir := "/repo"; module_link := Some "x";
        version := Some EmptyString |}].
Proof.
  apply (versions_are_normalized worded_version_fs "/repo" [] _ []).
  vm_compute. reflexivity.
Defined.

(** ** The run and the scanner together *)

(** X23. A predicate that raises for a reference is not covered by the [try]
    of line 79: [_download_module] raises, having logged nothing and called
    nothing. The exception stays in the future of the task, and the run of
    the batches returns normally, with the loader called for every reference
    the predicate lets through. *)
Theorem predicate_failure_stays_in_its_task ld should batches w m e :
  should (module_link m) = Raised e ->
  _download_module ld should m w = (Raised e, w) /\
  submit (_download_module ld should m) w = (Returned tt, w) /\
  fst (run_batches ld should batches w) = Returned tt /\
  loads (snd (run_batches ld should batches w)) =
    loads w ++
    map load_call_of (List.filter (eligible should) (all_tasks batches)).
Proof.
  intros Hs.
  assert (Hraise : _download_module ld should m w = (Raised e, w))
    by (unfold _download_module; rewrite Hs; reflexivity).
  split; [exact Hraise|]. split.
  - unfold submit, try_except. rewrite Hraise. reflexivity.
  - rewrite run_batches_effect. split; reflexivity.
Qed.

Lemma predicate_failure_stays_in_its_task_witness :
  _download_module loading_loader (failing_predicate "git::b") ref_b world0
    = (Raised (Exn OtherException "predicate failed"), world0) /\
  submit (_download_module loading_loader (failing_predicate "git::b") ref_b)
    world0 = (Returned tt, world0) /\
  fst (run_batches loading_loader (failing_predicate "git::b") two_batches
         world0) = Returned tt /\
  loads (snd (run_batches loading_loader (failing_predicate "git::b")
                two_batches world0)) =
    loads world0 ++
    map load_call_of
      (List.filter (eligible (failing_predicate "git::b"))
         (all_tasks two_batches)).
Proof.
  apply (predicate_failure_stays_in_its_task loading_loader
           (failing_predicate "git::b") two_batches world0 ref_b
           (Exn OtherException "predicate failed")).
  reflexivity.
Defined.

Lemma load_version_ok m :
  version_normal m -> version_argument_ok (load_version m).
Proof.
  unfold version_normal, load_version, version_argument_ok, digit_led.
  destruct (version m) as [[|c v]|]; simpl; eauto.
Qed.

Lemma planned_task_found ms m :
  m ∈ all_tasks (fold_left (fun bs m => first_fit m bs) (distinct_modules ms) []) ->
  m ∈ ms.
Proof.
  intros Hm. apply distinct_modules_subset.
  pose proof (plan_tasks (distinct_modules ms) []) as Hperm. simpl in Hperm.
  rewrite <- Hperm. exact Hm.
Qed.

(** X24. Whatever the tree, the loader and the predicate, every call that
    [load_tf_modules] adds is made for a reference the scan returned: its
    link is set, and its version is [latest] or a string that starts with a
    decimal digit, never the empty string and never text such as [v1]. *)
Theorem loader_arguments_are_normalized fs ld should path w c :
  c ∈ loads (snd (load_tf_modules fs ld should path w)) ->
  c ∈ loads w \/
  (is_Some (call_link c) /\
   (call_version c = "latest" \/
    exists d v, call_version c = String d v /\ Re.is_digit d = true)).
Proof.
  destruct (find_modules fs path (log w)) as [[ms|e] l] eqn:Hfind.
  - rewrite (load_tf_modules_returns fs ld should path w ms l Hfind). simpl.
    intros Hc. apply elem_of_app in Hc as [Hc|Hc]; [left; exact Hc|]. right.
    apply list_elem_of_In, in_map_iff in Hc as (m & <- & Hm).
    apply filter_In in Hm as [Hm _].
    apply list_elem_of_In, planned_task_found in Hm.
    pose proof (find_modules_all_linked fs path (log w) ms l Hfind) as Hlinked.
    pose proof (find_modules_inv version_normal update_md_version_normal
                  fs path (log w) ms l (fun _ _ _ => I) Hfind) as Hnormal.
    rewrite Forall_forall in Hlinked, Hnormal.
    split; [exact (Hlinked m Hm)|].
    exact (load_version_ok m (Hnormal m Hm)).
  - rewrite (load_tf_modules_raises fs ld should path w e l Hfind). simpl. auto.
Qed.

Lemma loader_arguments_are_normalized_witness :
  {| call_dir := "/repo"; call_link := Some "x"; call_version := "latest" |}
    ∈ loads world0 \/
  (is_Some (Some "x") /\
   ("latest" = "latest" \/
    exists d v, "latest" = String d v /\ Re.is_digit d = true)).
Proof.
  apply (loader_arguments_are_normalized worded_version_fs loading_loader
           default_should_download "/repo" world0
           {| call_dir := "/repo"; call_link := Some "x";
              call_version := "latest" |}).
  vm_compute. apply list_elem_of_here.
Defined.

(** ** The worker pool, continued *)

Lemma pool_step_keeps_tasks workers s s' :
  Pool.step workers s s' ->
  Pool.finished s' ++ Pool.active s' ++ tasks_from (Pool.opened s') (Pool.todo s')
  ≡ₚ Pool.finished s ++ Pool.active s ++ tasks_from (Pool.opened s) (Pool.todo s).
Proof.
  intros Hstep. destruct Hstep; unfold Pool.active; simpl.
  - rewrite !app_nil_r. reflexivity.
  - solve_Permutation.
  - solve_Permutation.
  - solve_Permutation.
Qed.

(** X25. No task is lost and none runs twice: in every state the pool can
    reach, the tasks that have finished, the tasks entered and not finished,
    and the tasks of the batches not entered yet are, taken together, the
    tasks of all batches, each once. Once no batch and no task is left, the
    finished tasks are the tasks of all batches. *)
Theorem pool_runs_each_task_once workers batches s :
  Pool.reachable workers batches s ->
  Pool.finished s ++ Pool.active s ++ tasks_from (Pool.opened s) (Pool.todo s)
    ≡ₚ tasks_from 0 batches /\
  (Pool.todo s = [] -> Pool.active s = [] ->
   Pool.finished s ≡ₚ tasks_from 0 batches).
Proof.
  intros Hreach.
  assert (Hall : Pool.finished s ++ Pool.active s ++
                 tasks_from (Pool.opened s) (Pool.todo s)
                 ≡ₚ tasks_from 0 batches).
  { unfold Pool.reachable in Hreach.
    apply rtc_ind_r with (x := Pool.initial batches)
      (P := fun s => Pool.finished s ++ Pool.active s ++
                     tasks_from (Pool.opened s) (Pool.todo s)
                     ≡ₚ tasks_from 0 batches) in Hreach;
      [exact Hreach | reflexivity |].
    intros y z _ Hstep Hy. rewrite <- Hy.
    exact (pool_step_keeps_tasks workers y z Hstep). }
  split; [exact Hall|].
  intros Htodo Hactive. rewrite Htodo, Hactive in Hall. simpl in Hall.
  rewrite app_nil_r in Hall. exact Hall.
Qed.

Lemma pool_runs_each_task_once_witness :
  Pool.finished first_batch_in_flight ++ Pool.active first_batch_in_flight ++
    tasks_from (Pool.opened first_batch_in_flight)
      (Pool.todo first_batch_in_flight)
    ≡ₚ tasks_from 0 two_batches /\
  (Pool.todo first_batch_in_flight = [] ->
   Pool.active first_batch_in_flight = [] ->
   Pool.finished first_batch_in_flight ≡ₚ tasks_from 0 two_batches).
Proof.
  apply (pool_runs_each_task_once 2 two_batches first_batch_in_flight).
  exact first_batch_in_flight_reachable.
Defined.

Section PoolProgress.
Variable workers : nat.
Hypothesis some_worker : 0 < workers.





End PoolProgress.


